(** * Siamese magic squares: [create_magic_square] of [magic_square.py]

    The generator of the repository is embedded as a state-passing program
    over Python integers ([Z]) and Python lists ([list]); the drawing code
    (turtle) only consumes the finished grid and is not modelled. *)

From Stdlib Require Import ZArith Znumtheory Lia String DecimalString.
From stdpp Require Import base tactics option list list_numbers relations.
From coqutil Require Import Z.PushPullMod.

Local Open Scope Z_scope.

(** ** Python values and faults *)

(** The only exception the generator can raise: a list subscript out of
    range. *)
Inductive exn : Set := IndexError.

Inductive res (A : Type) : Type :=
| Ok (a : A)
| Raise (e : exn).
Arguments Ok {A} a.
Arguments Raise {A} e.

#[global] Instance res_bind : MBind res := λ A B k m,
  match m with
  | Ok a => k a
  | Raise e => Raise e
  end.

(** [l[i]] as Python resolves a subscript: [0 <= i < len(l)] counts from the
    front, [-len(l) <= i < 0] from the back, anything else is an
    [IndexError]. *)
Definition py_index {A} (l : list A) (i : Z) : option nat :=
  let len := Z.of_nat (length l) in
  if decide (0 ≤ i < len) then Some (Z.to_nat i)
  else if decide (- len ≤ i < 0) then Some (Z.to_nat (i + len))
  else None.

Definition py_getitem {A} (l : list A) (i : Z) : res A :=
  match py_index l i with
  | Some k =>
      match l !! k with
      | Some x => Ok x
      | None => Raise IndexError
      end
  | None => Raise IndexError
  end.

Definition py_setitem {A} (l : list A) (i : Z) (x : A) : res (list A) :=
  match py_index l i with
  | Some k => Ok (<[k := x]> l)
  | None => Raise IndexError
  end.

(** ** The generator *)

Definition grid := list (list Z).

(** The variables the [while] loop reads and writes. [prev_r] and [prev_c]
    live inside one iteration only. *)
Record state : Type := State {
  magic_square : grid;
  r : Z;
  c : Z;
  num : Z
}.

(** [magic_square[r][c]] *)
Definition grid_get (g : grid) (r c : Z) : res Z :=
  row ← py_getitem g r;
  py_getitem row c.

(** [magic_square[r][c] = num]: the row object is fetched and mutated in
    place; the rows are distinct objects (they come from a comprehension), so
    exactly one row of the grid changes. *)
Definition grid_set (g : grid) (r c : Z) (v : Z) : res grid :=
  row ← py_getitem g r;
  row' ← py_setitem row c v;
  py_setitem g r row'.

(** One pass through the body of the [while] loop. *)
Definition body (n : Z) (st : state) : res state :=
  g ← grid_set (magic_square st) (r st) (c st) (num st);
  let prev_r := r st in
  let prev_c := c st in
  let r1 := (r st - 1) mod n in
  let c1 := (c st + 1) mod n in
  v ← grid_get g r1 c1;
  if decide (v ≠ 0)
  then Ok (State g ((prev_r + 1) mod n) prev_c (num st + 1))
  else Ok (State g r1 c1 (num st + 1)).

(** [num <= total_cells] *)
Definition loop_cond (total_cells : Z) (st : state) : bool :=
  num st <=? total_cells.

(** The [while] loop, bounded by [fuel] passes; [None] is fuel running out. *)
Fixpoint while_loop (fuel : nat) (n total_cells : Z) (st : state)
  : option (res state) :=
  if loop_cond total_cells st then
    match fuel with
    | O => None
    | S fuel' =>
        match body n st with
        | Ok st' => while_loop fuel' n total_cells st'
        | Raise e => Some (Raise e)
        end
    end
  else Some (Ok st).

(** [[[0] * n for _ in range(n)]]: for [n <= 0] both the repetition and the
    range are empty. *)
Definition zero_grid (n : Z) : grid :=
  replicate (Z.to_nat n) (replicate (Z.to_nat n) 0).

(** The state on entry to the loop. *)
Definition init (n : Z) : state :=
  State (zero_grid n) 0 (n / 2) 1.

(** What a call leaves behind: the lines printed and how it ended, either by
    returning a value ([None] or the grid) or by raising. *)
Inductive outcome : Type :=
| Returns (v : option grid)
| Raises (e : exn).

Record run : Type := Run {
  stdout : list string;
  result : outcome
}.

(** The spec's [InvalidSize] condition is the [return None] of the parity
    guard. *)
Abbreviation InvalidSize := (Returns None).

Definition even_message : string :=
  "Error: The Siamese method only works for odd numbers (n=3, 5, 7, ...).".

Definition create_magic_square (n : Z) : option run :=
  if decide (n mod 2 = 0) then
    Some (Run [even_message] (Returns None))
  else
    let total_cells := n * n in
    match while_loop (Z.to_nat total_cells) n total_cells (init n) with
    | Some (Ok st) => Some (Run [] (Returns (Some (magic_square st))))
    | Some (Raise e) => Some (Run [] (Raises e))
    | None => None
    end.

(** ** The loop as a transition system *)

(** One iteration: the guard holds and the body finishes without a fault. *)
Definition step (n total_cells : Z) (st st' : state) : Prop :=
  loop_cond total_cells st = true ∧ body n st = Ok st'.

(** [reaches n k st]: the loop of [create_magic_square n] is at [st] after
    [k] iterations. *)
Definition reaches (n : Z) (k : nat) (st : state) : Prop :=
  nsteps (step n (n * n)) k (init n) st.

(** How a call ends, read off the transition system: the parity guard
    rejects the size, or the loop leaves through its guard and the grid is
    returned, or an iteration raises. *)
Inductive call_result (n : Z) : run → Prop :=
| call_rejected :
    n mod 2 = 0 →
    call_result n (Run [even_message] (Returns None))
| call_returned k st :
    n mod 2 ≠ 0 →
    reaches n k st → loop_cond (n * n) st = false →
    call_result n (Run [] (Returns (Some (magic_square st))))
| call_raised k st e :
    n mod 2 ≠ 0 →
    reaches n k st → loop_cond (n * n) st = true → body n st = Raise e →
    call_result n (Run [] (Raises e)).

(** ** Closed form of the construction

    The [k]-th placement (counting from 0) belongs to diagonal run [k / n],
    at offset [k mod n] inside the run. *)

Definition place_row (n k : Z) : Z := (2 * (k / n) - k mod n) mod n.
Definition place_col (n k : Z) : Z := (n / 2 - k / n + k mod n) mod n.

(** The iteration that fills cell [(i, j)]. *)
Definition place_order (n i j : Z) : Z :=
  n * ((i + j - n / 2) mod n) + (i + 2 * j + 1) mod n.

Definition cell_after (n k i j : Z) : Z :=
  if decide (place_order n i j < k) then place_order n i j + 1 else 0.

Definition grid_after (n k : Z) : grid :=
  (λ i, (λ j, cell_after n k i j) <$> seqZ 0 n) <$> seqZ 0 n.

Definition state_after (n k : Z) : state :=
  State (grid_after n k) (place_row n k) (place_col n k) (k + 1).

(** ** The Siamese rule, as the specification words it *)

Definition candidate (n : Z) (cursor : Z * Z) : Z * Z :=
  ((cursor.1 - 1) mod n, (cursor.2 + 1) mod n).

Definition siamese_next (n : Z) (prev : Z * Z) (at_candidate : Z) : Z * Z :=
  if decide (at_candidate = 0) then candidate n prev
  else ((prev.1 + 1) mod n, prev.2).

Definition cursor (st : state) : Z * Z := (r st, c st).

(** ** Reading a finished grid *)

Definition sumZ (l : list Z) : Z := foldr Z.add 0 l.

Definition column (g : grid) (j : nat) : list Z :=
  (λ row, default 0 (row !! j)) <$> g.

Definition main_diagonal (g : grid) : list Z :=
  imap (λ i row, default 0 (row !! i)) g.

Definition anti_diagonal (g : grid) : list Z :=
  imap (λ i row, default 0 (row !! (length g - 1 - i)%nat)) g.

Definition magic_sum (n : Z) : Z := n * (n * n + 1) / 2.

Definition grid_of (o : option run) : option grid :=
  match o with
  | Some (Run _ (Returns (Some g))) => Some g
  | _ => None
  end.

Definition result_of (o : option run) : option outcome := result <$> o.

(** ** The application around the generator

    [get_numeric_input] and [run_magic_square_app] talk to the user through
    turtle dialogs.  A run is played against a script: the replies the
    dialogs receive, in order.  What the program shows, prints and draws is
    collected as a list of events; [draw_magic_square] is recorded as one
    event carrying its two arguments. *)

(** A Python [float]: a finite value is [m * 2^e] for integers [m], [e]. *)
Inductive pyfloat : Type :=
| Finite (m e : Z)
| Infinity (negative : bool)
| NaN.

Inductive app_exn : Type :=
| Terminator
| SystemExit (code : Z)
| ValueError
| OverflowError
| Generator (e : exn).

(** How a call into the environment or into a helper ends.  [Unanswered]:
    a dialog is open and the script holds no reply that fits it. *)
Inductive call (A : Type) : Type :=
| Returned (a : A)
| Threw (e : app_exn)
| Unanswered.
Arguments Returned {A} a.
Arguments Threw {A} e.
Arguments Unanswered {A}.

(** [int(val)] on a float truncates towards zero; it refuses infinities
    with [OverflowError] and NaN with [ValueError]. *)
Definition int_of_float (v : pyfloat) : call Z :=
  match v with
  | Finite m e =>
      if decide (0 ≤ e) then Returned (m * 2 ^ e)
      else Returned (Z.quot m (2 ^ (- e)))
  | Infinity _ => Threw OverflowError
  | NaN => Threw ValueError
  end.

(** What the user does with one dialog. *)
Inductive reply : Type :=
| Number (v : pyfloat)
| Text (s : string)
| Dismissed
| WindowClosed.

(** [turtle.numinput(title, prompt, minval=None, maxval=None)]: a float,
    [None] when the dialog is cancelled, [turtle.Terminator] when the window
    is gone. *)
Definition numinput (rp : reply) : call (option pyfloat) :=
  match rp with
  | Number v => Returned (Some v)
  | Dismissed => Returned None
  | WindowClosed => Threw Terminator
  | Text _ => Unanswered
  end.

(** [turtle.textinput(title, prompt)] *)
Definition textinput (rp : reply) : call (option string) :=
  match rp with
  | Text s => Returned (Some s)
  | Dismissed => Returned None
  | WindowClosed => Threw Terminator
  | Number _ => Unanswered
  end.

(** What the program leaves to the installation: whether the turtle module
    has a callable [numinput], and the builtin [int] on a stripped string
    ([None] standing for its [ValueError]). *)
Record platform : Type := Platform {
  numinput_callable : bool;
  int_of_str : string → option Z
}.

Inductive event : Type :=
| NumDialog (title prompt : string)
| TextDialog (title prompt : string)
| Printed (line : string)
| Drawn (g : grid) (n : Z).

(** The dialog [get_numeric_input] opens. *)
Definition numeric_dialog (p : platform) (title prompt : string) : event :=
  if numinput_callable p then NumDialog title prompt
  else TextDialog title prompt.

(** [get_numeric_input(title, prompt)], given the reply to its dialog.  The
    two [try] blocks turn a [TypeError] or [ValueError] of [int] into
    [None]; anything else [int] raises passes through. *)
Definition get_numeric_input (p : platform) (rp : reply)
  : call (option Z) :=
  if numinput_callable p then
    match numinput rp with
    | Returned None => Returned None
    | Returned (Some val) =>
        match int_of_float val with
        | Returned z => Returned (Some z)
        | Threw ValueError => Returned None
        | Threw e => Threw e
        | Unanswered => Unanswered
        end
    | Threw e => Threw e
    | Unanswered => Unanswered
    end
  else
    match textinput rp with
    | Returned None => Returned None
    | Returned (Some txt) => Returned (int_of_str p txt)
    | Threw e => Threw e
    | Unanswered => Unanswered
    end.

Definition valid_sizes : list Z := [3; 5; 7; 9].

(** [str(n)] for an integer *)
Definition py_str (z : Z) : string := NilZero.string_of_int (Z.to_int z).

(** [', '.join(map(str, valid_sizes))] *)
Definition sizes_text : string := String.concat ", " (py_str <$> valid_sizes).

Definition size_prompt : string :=
  ("Enter an odd number (choose one of " ++ sizes_text ++ "):")%string.

Definition invalid_text : string :=
  ("Please enter one of: " ++ sizes_text ++ ". Press OK to try again.")%string.

(** How the application ends: [sys.exit], an exception nobody catches, a
    normal return, or still waiting at a dialog.  [Unfinished] would be the
    generator exhausting the bound of its loop. *)
Inductive app_end : Type :=
| Exited (code : Z)
| Crashed (e : app_exn)
| Completed
| Waiting
| Unfinished.

(** [except (turtle.Terminator, SystemExit): sys.exit(0)] *)
Definition handler (e : app_exn) : app_end :=
  match e with
  | Terminator | SystemExit _ => Exited 0
  | _ => Crashed e
  end.

Inductive loop_end : Type :=
| Break (n : Z)
| Stop (o : app_end).

(** The [while True] loop of [run_magic_square_app].  Every pass opens the
    size dialog; a size outside [valid_sizes] opens the "Invalid" dialog and
    starts over.  [sys.exit(0)] inside the [try] raises [SystemExit], which
    the [except] clause answers with [sys.exit(0)] again. *)
Fixpoint size_loop (p : platform) (script : list reply)
  : list event * loop_end :=
  let ask := numeric_dialog p "Magic Square Size" size_prompt in
  let invalid := TextDialog "Invalid" invalid_text in
  match script with
  | [] => ([ask], Stop Waiting)
  | rp :: rest =>
      match get_numeric_input p rp with
      | Unanswered => ([ask], Stop Waiting)
      | Threw e => ([ask], Stop (handler e))
      | Returned None => ([ask], Stop (handler (SystemExit 0)))
      | Returned (Some n) =>
          if bool_decide (n ∈ valid_sizes) then ([ask], Break n)
          else
            match rest with
            | [] => ([ask; invalid], Stop Waiting)
            | rp' :: rest' =>
                match textinput rp' with
                | Returned _ =>
                    let '(t, o) := size_loop p rest' in
                    (ask :: invalid :: t, o)
                | Threw e => ([ask; invalid], Stop (handler e))
                | Unanswered => ([ask; invalid], Stop Waiting)
                end
            end
      end
  end.

(** After the loop: [create_magic_square(n)], then [draw_magic_square] if
    the result is truthy, which [None] and the empty list are not.  The call
    of [draw_magic_square] is the last statement; the run records it as the
    event [Drawn] and stops there with [Completed].  What goes on inside that
    call (it waits for a click, and it may raise) is outside this model. *)
Definition run_magic_square_app (p : platform) (script : list reply)
  : list event * app_end :=
  match size_loop p script with
  | (t, Stop o) => (t, o)
  | (t, Break n) =>
      match create_magic_square n with
      | None => (t, Unfinished)
      | Some (Run out (Raises e)) =>
          (t ++ (Printed <$> out), Crashed (Generator e))
      | Some (Run out (Returns (Some (row :: rows)))) =>
          (t ++ (Printed <$> out) ++ [Drawn (row :: rows) n], Completed)
      | Some (Run out (Returns _)) =>
          (t ++ (Printed <$> out), Completed)
      end
  end.

(** A normal magic square of order [n]: the numbers [1 .. n*n] in an
    [n]-by-[n] grid whose rows, columns and two diagonals have one sum. *)
Definition magic (n : Z) (g : grid) : Prop :=
  length g = Z.to_nat n
  ∧ Forall (λ row, length row = Z.to_nat n) g
  ∧ mjoin g ≡ₚ seqZ 1 (n * n)
  ∧ Forall (λ row, sumZ row = magic_sum n) g
  ∧ (∀ j, (j < Z.to_nat n)%nat → sumZ (column g j) = magic_sum n)
  ∧ sumZ (main_diagonal g) = magic_sum n
  ∧ sumZ (anti_diagonal g) = magic_sum n.

Definition is_dialog (ev : event) : Prop :=
  match ev with
  | NumDialog _ _ | TextDialog _ _ => True
  | _ => False
  end.

(** What can come out of the size loop: only dialogs are shown; the loop
    is left with one of the four sizes, or the program exits with status 0,
    or it waits, or it dies of the [OverflowError] of an infinite entry. *)
Definition loop_ok (p : platform) (script : list reply)
  (res : list event * loop_end) : Prop :=
  Forall is_dialog res.1
  ∧ match res.2 with
    | Break n => n ∈ valid_sizes
    | Stop (Exited code) => code = 0
    | Stop Waiting => True
    | Stop (Crashed e) =>
        e = OverflowError ∧ numinput_callable p = true
        ∧ ∃ b, Number (Infinity b) ∈ script
    | Stop _ => False
    end.

(** The replies of a user whose entries are all turned down: each entry is
    followed by the reply to the "Invalid" dialog. *)
Definition replies (tries : list (reply * reply)) : list reply :=
  tries ≫= (λ tr, [tr.1; tr.2]).

(** A rejected try: the entry converts to an integer outside
    [valid_sizes], and the "Invalid" dialog is answered. *)
Definition rejected (p : platform) (tr : reply * reply) : Prop :=
  ∃ n s, get_numeric_input p tr.1 = Returned (Some n)
         ∧ (n ∉ valid_sizes)
         ∧ textinput tr.2 = Returned s.

(** The dialogs the rejected tries have seen. *)
Definition retry_dialogs (p : platform) (k : nat) : list event :=
  mjoin (replicate k [numeric_dialog p "Magic Square Size" size_prompt;
                      TextDialog "Invalid" invalid_text]).

(** * Properties *)

(** The closed form against the executed loop, on a finished and on a
    partly filled 5-by-5 grid. *)
Example grid_after_5 :
  grid_of (create_magic_square 5) = Some (grid_after 5 25)
  ∧ grid_after 5 7
    = [[0; 0; 1; 0; 0]; [0; 5; 7; 0; 0]; [4; 6; 0; 0; 0];
       [0; 0; 0; 0; 3]; [0; 0; 0; 2; 0]].
Proof. vm_compute. split; reflexivity. Qed.

(** ** Arithmetic of the placement formulas *)

Lemma mod_shift (n a b t : Z) : a = b + t * n → a mod n = b mod n.
Proof. intros ->. apply Z_mod_plus_full. Qed.

(** Residues are compared after pulling every inner [mod] outwards; [t] is
    the multiple of the modulus the two sides differ by. *)
Ltac mod_shift t :=
  Z.push_pull_mod; apply (mod_shift _ _ _ t); try lia.

Lemma mod_to_small (n a b t : Z) :
  0 ≤ b < n → a mod n = (b + t * n) mod n → a mod n = b.
Proof.
  intros Hb ->. rewrite Z_mod_plus_full. by apply Z.mod_small.
Qed.

Lemma odd_half (n : Z) : Z.odd n = true → n = 2 * (n / 2) + 1.
Proof.
  intros Hodd. pose proof (Z.div_mod n 2) as Hdm.
  rewrite Zmod_odd, Hodd in Hdm. lia.
Qed.

Lemma odd_mod2 (n : Z) : Z.odd n = true → n mod 2 ≠ 0.
Proof. intros Hodd. rewrite Zmod_odd, Hodd. lia. Qed.

Lemma divmod_run (n q j : Z) :
  0 ≤ j < n → (n * q + j) / n = q ∧ (n * q + j) mod n = j.
Proof.
  intros Hj. split.
  - symmetry. apply (Z.div_unique_pos _ _ q j); lia.
  - symmetry. apply (Z.mod_unique_pos _ _ q j); lia.
Qed.

Lemma run_bounds (n k : Z) :
  0 < n → 0 ≤ k < n * n →
  0 ≤ k / n < n ∧ 0 ≤ k mod n < n ∧ k = n * (k / n) + k mod n.
Proof.
  intros Hn Hk. pose proof (Z.div_mod k n) as Hdm.
  pose proof (Z.mod_pos_bound k n Hn) as Hm.
  repeat split; try lia.
  - apply Z.div_pos; lia.
  - apply Z.div_lt_upper_bound; lia.
Qed.

Section placement.
Context (n : Z) (Hpos : 0 < n) (Hodd : Z.odd n = true).

Lemma place_row_bounds k : 0 ≤ place_row n k < n.
Proof. apply Z.mod_pos_bound, Hpos. Qed.

Lemma place_col_bounds k : 0 ≤ place_col n k < n.
Proof. apply Z.mod_pos_bound, Hpos. Qed.

Lemma place_order_bounds i j : 0 ≤ place_order n i j < n * n.
Proof.
  unfold place_order.
  pose proof (Z.mod_pos_bound (i + j - n / 2) n Hpos).
  pose proof (Z.mod_pos_bound (i + 2 * j + 1) n Hpos).
  nia.
Qed.

(** The cell chosen for placement [k] is filled at iteration [k]. *)
Lemma place_order_place k :
  0 ≤ k < n * n → place_order n (place_row n k) (place_col n k) = k.
Proof.
  intros Hk. destruct (run_bounds n k Hpos Hk) as (Hq & Hj & Hdm).
  unfold place_order, place_row, place_col.
  pose proof (odd_half n Hodd) as Hhalf.
  remember (k / n) as q in *. remember (k mod n) as j in *.
  remember (n / 2) as h in *.
  rewrite Hdm at 1. f_equal; [f_equal|].
  - apply (mod_to_small _ _ _ 0); [lia|]. mod_shift 0.
  - apply (mod_to_small _ _ _ 0); [lia|]. mod_shift 1.
Qed.

(** Conversely, iteration [place_order n i j] lands on cell [(i, j)]. *)
Lemma place_of_order i j :
  0 ≤ i < n → 0 ≤ j < n →
  place_row n (place_order n i j) = i ∧ place_col n (place_order n i j) = j.
Proof.
  intros Hi Hj. unfold place_row, place_col, place_order.
  pose proof (Z.mod_pos_bound (i + 2 * j + 1) n Hpos) as HJ.
  destruct (divmod_run n ((i + j - n / 2) mod n) _ HJ) as [-> ->].
  pose proof (odd_half n Hodd) as Hhalf.
  remember (n / 2) as h in *. split.
  - apply (mod_to_small _ _ _ 0); [lia|]. mod_shift (-1).
  - apply (mod_to_small _ _ _ 0); [lia|]. mod_shift 1.
Qed.

(** Inside a diagonal run the next placement is the up-right neighbour. *)
Lemma place_succ_diag k :
  0 ≤ k < n * n → k mod n + 1 < n →
  place_row n (k + 1) = (place_row n k - 1) mod n
  ∧ place_col n (k + 1) = (place_col n k + 1) mod n.
Proof.
  intros Hk Hlt. destruct (run_bounds n k Hpos Hk) as (Hq & Hj & Hdm).
  assert (Hj' : 0 ≤ k mod n + 1 < n) by lia.
  destruct (divmod_run n (k / n) _ Hj') as [Hd Hm].
  replace (n * (k / n) + (k mod n + 1)) with (k + 1) in Hd, Hm by lia.
  unfold place_row, place_col. rewrite Hd, Hm.
  pose proof (odd_half n Hodd) as Hhalf.
  remember (k / n) as q in *. remember (k mod n) as j in *.
  remember (n / 2) as h in *.
  split; mod_shift 0.
Qed.

(** At the end of a run the next placement is one row below. *)
Lemma place_succ_down k :
  0 ≤ k < n * n → k mod n + 1 = n →
  place_row n (k + 1) = (place_row n k + 1) mod n
  ∧ place_col n (k + 1) = place_col n k.
Proof.
  intros Hk Heq. destruct (run_bounds n k Hpos Hk) as (Hq & Hj & Hdm).
  assert (Hj' : 0 ≤ 0 < n) by lia.
  destruct (divmod_run n (k / n + 1) _ Hj') as [Hd Hm].
  replace (n * (k / n + 1) + 0) with (k + 1) in Hd, Hm by lia.
  unfold place_row, place_col. rewrite Hd, Hm.
  pose proof (odd_half n Hodd) as Hhalf.
  remember (k / n) as q in *. remember (k mod n) as j in *.
  remember (n / 2) as h in *.
  split.
  - mod_shift 1.
  - mod_shift (-1).
Qed.

(** The cell up-right of placement [k] is the one filled next inside the
    run, or the first cell of the run when the run is complete. *)
Lemma place_order_candidate k :
  0 ≤ k < n * n →
  place_order n ((place_row n k - 1) mod n) ((place_col n k + 1) mod n)
  = n * (k / n) + (k mod n + 1) mod n.
Proof.
  intros Hk. destruct (run_bounds n k Hpos Hk) as (Hq & Hj & Hdm).
  unfold place_order, place_row, place_col.
  pose proof (odd_half n Hodd) as Hhalf.
  remember (k / n) as q in *. remember (k mod n) as j in *.
  remember (n / 2) as h in *.
  f_equal; [f_equal|].
  - apply (mod_to_small _ _ _ 0); [lia|]. mod_shift 0.
  - mod_shift 1.
Qed.
End placement.

(** ** Subscripts on tabulated lists *)

Lemma py_index_front {A} (l : list A) (i : Z) :
  0 ≤ i < Z.of_nat (length l) → py_index l i = Some (Z.to_nat i).
Proof. intros Hi. unfold py_index. by rewrite decide_True. Qed.

Lemma length_tabulate {A} (f : Z → A) (n : Z) :
  Z.of_nat (length (f <$> seqZ 0 n)) = Z.max 0 n.
Proof. rewrite length_fmap, length_seqZ. lia. Qed.

Lemma lookup_tabulate {A} (f : Z → A) (n : Z) (i : nat) :
  Z.of_nat i < n → (f <$> seqZ 0 n) !! i = Some (f (Z.of_nat i)).
Proof.
  intros Hi. by rewrite list_lookup_fmap, lookup_seqZ_lt.
Qed.

Lemma py_getitem_tabulate {A} (f : Z → A) (n i : Z) :
  0 ≤ i < n → py_getitem (f <$> seqZ 0 n) i = Ok (f i).
Proof.
  intros Hi. unfold py_getitem.
  rewrite py_index_front by (rewrite length_tabulate; lia).
  rewrite lookup_tabulate by lia. by rewrite Z2Nat.id by lia.
Qed.

(** Overwriting entry [i] of a tabulated list tabulates the updated
    function. *)
Lemma py_setitem_tabulate {A} (f f' : Z → A) (n i : Z) :
  0 ≤ i < n →
  (∀ x, 0 ≤ x < n → x ≠ i → f x = f' x) →
  py_setitem (f <$> seqZ 0 n) i (f' i) = Ok (f' <$> seqZ 0 n).
Proof.
  intros Hi Hext. unfold py_setitem.
  rewrite py_index_front by (rewrite length_tabulate; lia).
  f_equal. apply list_eq. intros x.
  destruct (decide (Z.of_nat x < n)) as [Hx|Hx].
  - rewrite (lookup_tabulate f') by done.
    destruct (decide (x = Z.to_nat i)) as [->|Hne].
    + rewrite list_lookup_insert_eq
        by (apply Nat2Z.inj_lt; rewrite length_tabulate; lia).
      by rewrite Z2Nat.id by lia.
    + rewrite list_lookup_insert_ne by done.
      rewrite lookup_tabulate by done. f_equal. apply Hext; lia.
  - rewrite !lookup_ge_None_2; [done| |].
    + apply Nat2Z.inj_le. rewrite length_tabulate. lia.
    + rewrite length_insert. apply Nat2Z.inj_le. rewrite length_tabulate. lia.
Qed.

Lemma grid_get_after (n k i j : Z) :
  0 ≤ i < n → 0 ≤ j < n →
  grid_get (grid_after n k) i j = Ok (cell_after n k i j).
Proof.
  intros Hi Hj. unfold grid_get, grid_after.
  rewrite py_getitem_tabulate by done. simpl.
  by rewrite py_getitem_tabulate.
Qed.

Lemma zero_grid_after (n : Z) : 0 < n → zero_grid n = grid_after n 0.
Proof.
  intros Hn. unfold zero_grid, grid_after.
  rewrite <- (length_seqZ 0 n). symmetry.
  apply const_fmap. intros _ i _. apply const_fmap. intros _ j _.
  unfold cell_after. rewrite decide_False; [done|].
  pose proof (Z.mod_pos_bound (i + j - n / 2) n Hn).
  pose proof (Z.mod_pos_bound (i + 2 * j + 1) n Hn).
  unfold place_order. nia.
Qed.

Section invariant.
Context (n : Z) (Hpos : 0 < n) (Hodd : Z.odd n = true).

(** A cell other than the one being filled keeps its content. *)
Lemma cell_after_other k i j :
  0 ≤ k < n * n → 0 ≤ i < n → 0 ≤ j < n →
  (i, j) ≠ (place_row n k, place_col n k) →
  cell_after n k i j = cell_after n (k + 1) i j.
Proof.
  intros Hk Hi Hj Hne. unfold cell_after.
  assert (place_order n i j ≠ k) as Hord.
  { intros Heq. apply Hne.
    destruct (place_of_order n Hpos Hodd i j Hi Hj) as [Hr Hc].
    rewrite Heq in Hr, Hc. by rewrite Hr, Hc. }
  repeat case_decide; lia.
Qed.

Lemma cell_after_placed k :
  0 ≤ k < n * n →
  cell_after n (k + 1) (place_row n k) (place_col n k) = k + 1.
Proof.
  intros Hk. unfold cell_after.
  rewrite place_order_place by done. rewrite decide_True; lia.
Qed.

(** The cell about to be filled is still empty. *)
Lemma cell_after_fresh k :
  0 ≤ k < n * n →
  cell_after n k (place_row n k) (place_col n k) = 0.
Proof.
  intros Hk. unfold cell_after.
  rewrite place_order_place by done. rewrite decide_False; lia.
Qed.

Lemma grid_set_after k :
  0 ≤ k < n * n →
  grid_set (grid_after n k) (place_row n k) (place_col n k) (k + 1)
  = Ok (grid_after n (k + 1)).
Proof.
  intros Hk. unfold grid_set, grid_after.
  pose proof (place_row_bounds n Hpos k) as Hr.
  pose proof (place_col_bounds n Hpos k) as Hc.
  rewrite py_getitem_tabulate by done. simpl.
  rewrite <- (cell_after_placed k Hk) at 1.
  rewrite (py_setitem_tabulate _ (λ j, cell_after n (k + 1) (place_row n k) j))
    by (try done; intros j ??; apply cell_after_other; (done || congruence)).
  simpl.
  apply (py_setitem_tabulate _
           (λ i, (λ j, cell_after n (k + 1) i j) <$> seqZ 0 n)); [done|].
  intros i Hi Hne. apply list_fmap_ext. intros ? j Hj.
  apply lookup_seqZ in Hj as [-> ?].
  apply cell_after_other; (lia || congruence).
Qed.
End invariant.

(** ** The bounded loop against the transition system *)

Lemma step_deterministic (n t : Z) (st st1 st2 : state) :
  step n t st st1 → step n t st st2 → st1 = st2.
Proof. intros [_ H1] [_ H2]. congruence. Qed.

Lemma nsteps_deterministic (n t : Z) (k : nat) (st st1 st2 : state) :
  nsteps (step n t) k st st1 → nsteps (step n t) k st st2 → st1 = st2.
Proof.
  intros H1. revert st2.
  induction H1 as [|k x y z Hxy _ IH]; intros st2 H2.
  - by inv H2.
  - inv H2. apply IH.
    by rewrite (step_deterministic _ _ _ _ _ Hxy ltac:(eassumption)).
Qed.

Lemma while_loop_returns (fuel : nat) (n t : Z) (k : nat) (st st' : state) :
  nsteps (step n t) k st st' → loop_cond t st' = false → (k ≤ fuel)%nat →
  while_loop fuel n t st = Some (Ok st').
Proof.
  intros Hsteps Hexit. revert fuel.
  induction Hsteps as [st|k x y z [Hc Hb] _ IH]; intros fuel Hfuel.
  - destruct fuel; simpl; by rewrite Hexit.
  - destruct fuel as [|fuel]; [lia|]. simpl.
    rewrite Hc, Hb. apply IH; (done || lia).
Qed.

Lemma while_loop_raises (fuel : nat) (n t : Z) (k : nat) (st st' : state) e :
  nsteps (step n t) k st st' → loop_cond t st' = true →
  body n st' = Raise e → (k < fuel)%nat →
  while_loop fuel n t st = Some (Raise e).
Proof.
  intros Hsteps Hc' Hb'. revert fuel.
  induction Hsteps as [st|k x y z [Hc Hb] _ IH]; intros fuel Hfuel.
  - destruct fuel as [|fuel]; [lia|]. simpl. by rewrite Hc', Hb'.
  - destruct fuel as [|fuel]; [lia|]. simpl.
    rewrite Hc, Hb. apply IH; (done || lia).
Qed.

Lemma while_loop_steps (fuel : nat) (n t : Z) (st st' : state) :
  while_loop fuel n t st = Some (Ok st') →
  ∃ k, (k ≤ fuel)%nat ∧ nsteps (step n t) k st st' ∧ loop_cond t st' = false.
Proof.
  revert st. induction fuel as [|fuel IH]; intros st; simpl.
  - destruct (loop_cond t st) eqn:Hc; [done|].
    intros [= <-]. exists 0%nat. repeat split; [lia | constructor | done].
  - destruct (loop_cond t st) eqn:Hc.
    + destruct (body n st) as [st1|e] eqn:Hb; [|done].
      intros (k & Hk & Hsteps & Hexit)%IH.
      exists (S k). repeat split; [lia | | done].
      by apply (nsteps_l _ _ _ st1).
    + intros [= <-]. exists 0%nat. repeat split; [lia | constructor | done].
Qed.

(** ** The loop invariant: after [k] iterations the state is [state_after] *)

Section run.
Context (n : Z) (Hpos : 0 < n) (Hodd : Z.odd n = true).

Lemma body_after k :
  0 ≤ k < n * n → body n (state_after n k) = Ok (state_after n (k + 1)).
Proof.
  intros Hk. unfold body, state_after. simpl.
  rewrite grid_set_after by done. simpl.
  rewrite grid_get_after by (apply Z.mod_pos_bound, Hpos). simpl.
  unfold cell_after. rewrite place_order_candidate by done.
  destruct (run_bounds n k Hpos Hk) as (Hq & Hj & Hdm).
  destruct (decide (k mod n + 1 < n)) as [Hlt|Hge].
  - rewrite (Z.mod_small (k mod n + 1)) by lia.
    rewrite (decide_False (P := _ < k + 1)) by lia.
    rewrite decide_False by lia.
    by destruct (place_succ_diag n Hpos Hodd k Hk Hlt) as [-> ->].
  - assert (k mod n + 1 = n) as Heq by lia.
    rewrite Heq, Z_mod_same_full.
    rewrite (decide_True (P := _ < k + 1)) by lia.
    rewrite decide_True by lia.
    by destruct (place_succ_down n Hpos Hodd k Hk Heq) as [-> ->].
Qed.

Lemma step_after k :
  0 ≤ k < n * n → step n (n * n) (state_after n k) (state_after n (k + 1)).
Proof.
  intros Hk. split; [|by apply body_after].
  unfold loop_cond. simpl. apply Z.leb_le. lia.
Qed.

Lemma init_after : init n = state_after n 0.
Proof.
  unfold init, state_after. rewrite zero_grid_after by done.
  unfold place_row, place_col.
  rewrite Z.div_0_l, Z.mod_0_l by lia.
  pose proof (odd_half n Hodd).
  rewrite Z.mod_0_l, Z.sub_0_r, Z.add_0_r by lia.
  by rewrite Z.mod_small by lia.
Qed.

Lemma reaches_after (k : nat) :
  Z.of_nat k ≤ n * n → reaches n k (state_after n (Z.of_nat k)).
Proof.
  unfold reaches. induction k as [|k IH]; intros Hk.
  - rewrite init_after. constructor.
  - eapply nsteps_r; [apply IH; lia|].
    replace (Z.of_nat (S k)) with (Z.of_nat k + 1) by lia.
    apply step_after. lia.
Qed.

Lemma reaches_inv (k : nat) (st : state) :
  reaches n k st → Z.of_nat k ≤ n * n ∧ st = state_after n (Z.of_nat k).
Proof.
  unfold reaches. revert st. induction k as [|k IH]; intros st Hst.
  - inv Hst. split; [nia | apply init_after].
  - apply nsteps_inv_r in Hst as (y & Hy & Hc & Hb).
    destruct (IH y Hy) as [Hk ->].
    unfold loop_cond in Hc. simpl in Hc. apply Z.leb_le in Hc.
    split; [lia|].
    rewrite body_after in Hb by lia. injection Hb as <-.
    f_equal. lia.
Qed.

Lemma loop_cond_after k :
  loop_cond (n * n) (state_after n k) = bool_decide (k < n * n).
Proof.
  unfold loop_cond. simpl.
  case_bool_decide; [apply Z.leb_le | apply Z.leb_gt]; lia.
Qed.

(** The call returns the closed-form grid. *)
Lemma create_magic_square_after :
  create_magic_square n = Some (Run [] (Returns (Some (grid_after n (n * n))))).
Proof.
  unfold create_magic_square.
  rewrite decide_False by by apply odd_mod2.
  simpl.
  rewrite (while_loop_returns _ _ _ (Z.to_nat (n * n)) _
             (state_after n (n * n))); [done| |  |lia].
  - pose proof (reaches_after (Z.to_nat (n * n))) as Hreach.
    rewrite Z2Nat.id in Hreach by nia. apply Hreach. lia.
  - rewrite loop_cond_after. apply bool_decide_eq_false. lia.
Qed.
End run.

(** ** Sums over tabulated lists *)

Lemma sumZ_app (l k : list Z) : sumZ (l ++ k) = sumZ l + sumZ k.
Proof. induction l as [|x l IH]; simpl; lia. Qed.

Lemma sumZ_Permutation (l k : list Z) : l ≡ₚ k → sumZ l = sumZ k.
Proof. induction 1; simpl; lia. Qed.

Lemma sumZ_fmap_add {A} (f g : A → Z) (l : list A) :
  sumZ ((λ x, f x + g x) <$> l) = sumZ (f <$> l) + sumZ (g <$> l).
Proof. induction l as [|x l IH]; csimpl; [done|]. rewrite IH. lia. Qed.

Lemma sumZ_fmap_mul {A} (a : Z) (f : A → Z) (l : list A) :
  sumZ ((λ x, a * f x) <$> l) = a * sumZ (f <$> l).
Proof. induction l as [|x l IH]; csimpl; [lia|]. rewrite IH. lia. Qed.

Lemma sumZ_fmap_const {A} (a : Z) (l : list A) :
  sumZ ((λ _, a) <$> l) = Z.of_nat (length l) * a.
Proof.
  induction l as [|x l IH]; csimpl; [lia|]. rewrite IH. lia.
Qed.

Lemma sumZ_seqZ (n : nat) :
  2 * sumZ (seqZ 0 (Z.of_nat n)) = Z.of_nat n * (Z.of_nat n - 1).
Proof.
  induction n as [|n IH]; [done|].
  rewrite seqZ_S, sumZ_app. simpl. nia.
Qed.

Section residues.
Context (n : Z) (Hpos : 0 < n).

(** An affine map with a multiplier coprime to [n] permutes the residues. *)
Lemma affine_residues_Permutation (a b : Z) :
  Z.gcd n a = 1 →
  (λ x, (a * x + b) mod n) <$> seqZ 0 n ≡ₚ seqZ 0 n.
Proof.
  intros Hgcd. apply submseteq_length_Permutation.
  - apply NoDup_submseteq.
    + apply NoDup_fmap_2_strong; [|apply NoDup_seqZ].
      intros x y Hx%elem_of_seqZ Hy%elem_of_seqZ Heq.
      apply Z.cong_iff_ex in Heq as [t Ht].
      assert (n | a * (x - y)) as Hdiv by (exists t; lia).
      apply Z.gauss in Hdiv as [s Hs]; [|done].
      assert (-1 < s < 1) by nia. lia.
    + intros x (y & -> & _)%list_elem_of_fmap.
      apply elem_of_seqZ.
      pose proof (Z.mod_pos_bound (a * y + b) n Hpos). lia.
  - by rewrite length_fmap.
Qed.

Lemma sumZ_affine_residues (a b : Z) :
  Z.gcd n a = 1 →
  2 * sumZ ((λ x, (a * x + b) mod n) <$> seqZ 0 n) = n * (n - 1).
Proof.
  intros Hgcd.
  rewrite (sumZ_Permutation _ _ (affine_residues_Permutation a b Hgcd)).
  rewrite <- (Z2Nat.id n) by lia. apply sumZ_seqZ.
Qed.

Lemma gcd_opp_1 : Z.gcd n (-1) = 1.
Proof. apply Z.bezout_1_gcd. exists 0, (-1). lia. Qed.

Lemma gcd_1 : Z.gcd n 1 = 1.
Proof. apply Z.gcd_1_r. Qed.

Lemma gcd_odd_2 : Z.odd n = true → Z.gcd n 2 = 1.
Proof.
  intros Hodd%odd_half. apply Z.bezout_1_gcd.
  exists 1, (- (n / 2)). lia.
Qed.

(** Reading the indices backwards does not change a sum. *)
Lemma sumZ_mirror (f : Z → Z) :
  sumZ ((λ x, f (n - 1 - x)) <$> seqZ 0 n) = sumZ (f <$> seqZ 0 n).
Proof.
  rewrite <- (sumZ_Permutation _ _
    (fmap_Permutation f _ _ (affine_residues_Permutation (-1) (n - 1) gcd_opp_1))).
  rewrite <- list_fmap_compose. f_equal.
  apply list_fmap_ext. intros i x [-> ?]%lookup_seqZ. simpl.
  f_equal. rewrite Z.mod_small; lia.
Qed.

(** A function whose values at mirrored indices add up to [s] sums to
    [n * s / 2]. *)
Lemma sumZ_symmetric (f : Z → Z) (s : Z) :
  (∀ x, 0 ≤ x < n → f x + f (n - 1 - x) = s) →
  2 * sumZ (f <$> seqZ 0 n) = n * s.
Proof.
  intros Hsym.
  transitivity (sumZ ((λ x, f x + f (n - 1 - x)) <$> seqZ 0 n)).
  - rewrite sumZ_fmap_add, sumZ_mirror. lia.
  - rewrite (list_fmap_ext _ (λ _, s)).
    + rewrite sumZ_fmap_const, length_seqZ. lia.
    + intros i x [-> ?]%lookup_seqZ. apply Hsym. lia.
Qed.

Lemma mod_complement (a b : Z) :
  (a + b + 1) mod n = 0 → a mod n + b mod n = n - 1.
Proof.
  intros Hz.
  pose proof (Z.mod_pos_bound a n Hpos). pose proof (Z.mod_pos_bound b n Hpos).
  assert ((a mod n + b mod n + 1) mod n = 0) as Hz'.
  { rewrite <- Hz. Z.mod_equality. }
  apply Z.mod_divide in Hz' as [t Ht]; [|lia].
  assert (0 < t < 2) by nia. nia.
Qed.

Lemma sumZ_complement_residues (f : Z → Z) :
  (∀ x, (f x + f (n - 1 - x) + 1) mod n = 0) →
  2 * sumZ ((λ x, f x mod n) <$> seqZ 0 n) = n * (n - 1).
Proof.
  intros Hf. apply (sumZ_symmetric (λ x, f x mod n)).
  intros x _. by apply mod_complement.
Qed.

(** A line of cells whose run numbers and offsets each sum like the
    residues [0 .. n-1] adds up to the magic constant. *)
Lemma sumZ_line (q j : Z → Z) :
  2 * sumZ (q <$> seqZ 0 n) = n * (n - 1) →
  2 * sumZ (j <$> seqZ 0 n) = n * (n - 1) →
  2 * sumZ ((λ x, n * q x + j x + 1) <$> seqZ 0 n) = n * (n * n + 1).
Proof.
  intros Hq Hj.
  rewrite (sumZ_fmap_add (λ x, n * q x + j x) (λ _, 1)).
  rewrite (sumZ_fmap_add (λ x, n * q x) j).
  rewrite sumZ_fmap_mul, sumZ_fmap_const, length_seqZ. nia.
Qed.
End residues.

(** ** The finished grid *)

Lemma half_exact (s x : Z) : 2 * s = x → s = x / 2.
Proof. intros <-. by rewrite Z.mul_comm, Z.div_mul. Qed.

Lemma length_join_uniform {A} (ls : list (list A)) (m : nat) :
  Forall (λ l, length l = m) ls → length (mjoin ls) = (length ls * m)%nat.
Proof.
  induction 1 as [|l ls Hl _ IH]; [done|].
  csimpl. rewrite length_app, Hl, IH. done.
Qed.

Lemma column_tabulate (f : Z → Z → Z) (n : Z) (j : nat) :
  Z.of_nat j < n →
  column ((λ i, f i <$> seqZ 0 n) <$> seqZ 0 n) j
  = (λ i, f i (Z.of_nat j)) <$> seqZ 0 n.
Proof.
  intros Hj. unfold column. rewrite <- list_fmap_compose.
  apply list_fmap_ext. intros _ i _. simpl.
  by rewrite lookup_tabulate.
Qed.

Lemma main_diagonal_tabulate (f : Z → Z → Z) (n : Z) :
  main_diagonal ((λ i, f i <$> seqZ 0 n) <$> seqZ 0 n)
  = (λ x, f x x) <$> seqZ 0 n.
Proof.
  unfold main_diagonal. apply list_eq. intros i.
  rewrite list_lookup_imap, !list_lookup_fmap.
  destruct (seqZ 0 n !! i) as [x|] eqn:Hx; [|done].
  apply lookup_seqZ in Hx as [-> Hi]. simpl.
  by rewrite lookup_tabulate.
Qed.

Lemma anti_diagonal_tabulate (f : Z → Z → Z) (n : Z) :
  anti_diagonal ((λ i, f i <$> seqZ 0 n) <$> seqZ 0 n)
  = (λ x, f x (n - 1 - x)) <$> seqZ 0 n.
Proof.
  unfold anti_diagonal. apply list_eq. intros i.
  rewrite list_lookup_imap, !list_lookup_fmap.
  destruct (seqZ 0 n !! i) as [x|] eqn:Hx; [|done].
  apply lookup_seqZ in Hx as [-> Hi]. simpl.
  rewrite length_fmap, length_seqZ.
  rewrite lookup_tabulate by lia. simpl. do 2 f_equal. lia.
Qed.

Section magic.
Context (n : Z) (Hpos : 0 < n) (Hodd : Z.odd n = true).

Lemma cell_final i j :
  cell_after n (n * n) i j = place_order n i j + 1.
Proof.
  unfold cell_after. pose proof (place_order_bounds n Hpos i j).
  rewrite decide_True; lia.
Qed.

(** The sum along any line [x ↦ (ci x, cj x)] of the finished grid whose
    run numbers and offsets sum like [0 .. n-1]. *)
Lemma sumZ_cells (ci cj q j : Z → Z) :
  (∀ x, place_order n (ci x) (cj x) = n * q x + j x) →
  2 * sumZ (q <$> seqZ 0 n) = n * (n - 1) →
  2 * sumZ (j <$> seqZ 0 n) = n * (n - 1) →
  sumZ ((λ x, cell_after n (n * n) (ci x) (cj x)) <$> seqZ 0 n)
  = magic_sum n.
Proof.
  intros Hord Hq Hj. apply half_exact.
  rewrite <- (sumZ_line n Hpos q j Hq Hj). do 2 f_equal.
  apply list_fmap_ext. intros _ x _. simpl.
  by rewrite cell_final, Hord.
Qed.

Lemma row_sum i :
  sumZ ((λ j, cell_after n (n * n) i j) <$> seqZ 0 n) = magic_sum n.
Proof.
  apply (sumZ_cells (λ _, i) (λ x, x)
           (λ x, (1 * x + (i - n / 2)) mod n)
           (λ x, (2 * x + (i + 1)) mod n)).
  - intros x. unfold place_order. f_equal; [f_equal|]; f_equal; lia.
  - apply sumZ_affine_residues; [done | apply gcd_1].
  - apply sumZ_affine_residues; [done | by apply gcd_odd_2].
Qed.

Lemma column_sum j :
  sumZ ((λ i, cell_after n (n * n) i j) <$> seqZ 0 n) = magic_sum n.
Proof.
  apply (sumZ_cells (λ x, x) (λ _, j)
           (λ x, (1 * x + (j - n / 2)) mod n)
           (λ x, (1 * x + (2 * j + 1)) mod n)).
  - intros x. unfold place_order. f_equal; [f_equal|]; f_equal; lia.
  - apply sumZ_affine_residues; [done | apply gcd_1].
  - apply sumZ_affine_residues; [done | apply gcd_1].
Qed.

Lemma main_diagonal_sum :
  sumZ ((λ x, cell_after n (n * n) x x) <$> seqZ 0 n) = magic_sum n.
Proof.
  pose proof (odd_half n Hodd) as Hhalf.
  apply (sumZ_cells (λ x, x) (λ x, x)
           (λ x, (x + x - n / 2) mod n)
           (λ x, (x + 2 * x + 1) mod n)).
  - done.
  - apply (sumZ_complement_residues n Hpos (λ x, x + x - n / 2)).
    intros x. simpl.
    replace (_ + _ + 1) with (1 * n) by lia. apply Z_mod_mult.
  - apply (sumZ_complement_residues n Hpos (λ x, x + 2 * x + 1)).
    intros x. simpl.
    replace (_ + _ + 1) with (3 * n) by lia. apply Z_mod_mult.
Qed.

Lemma anti_diagonal_sum :
  sumZ ((λ x, cell_after n (n * n) x (n - 1 - x)) <$> seqZ 0 n)
  = magic_sum n.
Proof.
  pose proof (odd_half n Hodd) as Hhalf.
  apply (sumZ_cells (λ x, x) (λ x, n - 1 - x)
           (λ x, (x + (n - 1 - x) - n / 2) mod n)
           (λ x, (x + 2 * (n - 1 - x) + 1) mod n)).
  - done.
  - apply (sumZ_complement_residues n Hpos (λ x, x + (n - 1 - x) - n / 2)).
    intros x. simpl.
    replace (_ + _ + 1) with (1 * n) by lia. apply Z_mod_mult.
  - apply (sumZ_complement_residues n Hpos (λ x, x + 2 * (n - 1 - x) + 1)).
    intros x. simpl.
    replace (_ + _ + 1) with (3 * n) by lia. apply Z_mod_mult.
Qed.

Lemma grid_after_shape k :
  length (grid_after n k) = Z.to_nat n
  ∧ Forall (λ row, length row = Z.to_nat n) (grid_after n k).
Proof.
  unfold grid_after. split.
  - by rewrite length_fmap, length_seqZ.
  - apply Forall_fmap, Forall_true. intros i. simpl.
    by rewrite length_fmap, length_seqZ.
Qed.

Lemma elem_of_grid_after k i j :
  0 ≤ i < n → 0 ≤ j < n → cell_after n k i j ∈ mjoin (grid_after n k).
Proof.
  intros Hi Hj. apply list_elem_of_join.
  exists ((λ j, cell_after n k i j) <$> seqZ 0 n). split.
  - apply (list_elem_of_fmap_2 (λ j, cell_after n k i j)), elem_of_seqZ. lia.
  - apply (list_elem_of_fmap_2
             (λ i, (λ j, cell_after n k i j) <$> seqZ 0 n)), elem_of_seqZ.
    lia.
Qed.

(** Read row by row, the finished grid is a rearrangement of [1 .. n*n]. *)
Lemma grid_final_Permutation :
  mjoin (grid_after n (n * n)) ≡ₚ seqZ 1 (n * n).
Proof.
  symmetry. apply submseteq_length_Permutation.
  - apply NoDup_submseteq; [apply NoDup_seqZ|].
    intros v Hv%elem_of_seqZ.
    assert (0 ≤ v - 1 < n * n) as Hk by lia.
    replace v with (cell_after n (n * n) (place_row n (v - 1))
                      (place_col n (v - 1))).
    + apply elem_of_grid_after;
        [apply place_row_bounds | apply place_col_bounds]; done.
    + rewrite cell_final, place_order_place by done. lia.
  - destruct (grid_after_shape (n * n)) as [Hlen Hrows].
    rewrite (length_join_uniform _ _ Hrows), Hlen, length_seqZ. nia.
Qed.
End magic.

(** ** The generator on sizes the guard lets through or rejects *)

Lemma create_magic_square_even (n : Z) :
  n mod 2 = 0 →
  create_magic_square n = Some (Run [even_message] InvalidSize).
Proof. intros Hz. unfold create_magic_square. by rewrite decide_True. Qed.

Lemma body_empty_grid (n : Z) : n < 0 → body n (init n) = Raise IndexError.
Proof.
  intros Hn. unfold body, init, zero_grid. simpl.
  by rewrite Z2Nat.nonpos by lia.
Qed.

Lemma create_magic_square_negative_odd (n : Z) :
  n < 0 → Z.odd n = true →
  create_magic_square n = Some (Run [] (Raises IndexError)).
Proof.
  intros Hn Hodd. unfold create_magic_square.
  rewrite decide_False by by apply odd_mod2.
  simpl.
  rewrite (while_loop_raises _ _ _ 0 _ (init n) IndexError); [done| | | |].
  - constructor.
  - unfold loop_cond. simpl. apply Z.leb_le. nia.
  - by apply body_empty_grid.
  - apply Nat2Z.inj_lt. rewrite Z2Nat.id; nia.
Qed.

(** The body computes its next cursor by the rule [siamese_next], from the
    previous cursor and the content of the candidate cell alone. *)
Lemma body_siamese (n : Z) (st st' : state) :
  body n st = Ok st' →
  ∃ g v,
    grid_set (magic_square st) (r st) (c st) (num st) = Ok g
    ∧ grid_get g (candidate n (cursor st)).1 (candidate n (cursor st)).2 = Ok v
    ∧ magic_square st' = g
    ∧ cursor st' = siamese_next n (cursor st) v
    ∧ num st' = num st + 1.
Proof.
  unfold body, candidate, siamese_next, cursor. simpl.
  destruct (grid_set _ _ _ _) as [g|] eqn:Hset; [simpl|done].
  destruct (grid_get g _ _) as [v|] eqn:Hget; [simpl|done].
  intros Hst. exists g, v.
  destruct (decide (v ≠ 0)) as [Hv|Hv].
  - injection Hst as <-. simpl. by rewrite decide_False.
  - injection Hst as <-. simpl. rewrite decide_True; [done|].
    by destruct (decide (v = 0)).
Qed.

(** ** Outcomes of a call *)

Lemma while_loop_faults (fuel : nat) (n t : Z) (st : state) (e : exn) :
  while_loop fuel n t st = Some (Raise e) →
  ∃ k st', nsteps (step n t) k st st'
           ∧ loop_cond t st' = true ∧ body n st' = Raise e.
Proof.
  revert st. induction fuel as [|fuel IH]; intros st; simpl.
  - by destruct (loop_cond t st).
  - destruct (loop_cond t st) eqn:Hc; [|done].
    destruct (body n st) as [st1|e1] eqn:Hb.
    + intros (k & st' & Hsteps & Hc' & Hb')%IH.
      exists (S k), st'. split; [|done]. by apply (nsteps_l _ _ _ st1).
    + intros [= <-]. exists 0%nat, st. split; [constructor | done].
Qed.

(** Two runs from the same state that both end where no iteration can
    follow have the same length and the same last state. *)
Lemma nsteps_stuck_unique (n t : Z) (k1 k2 : nat) (st st1 st2 : state) :
  nsteps (step n t) k1 st st1 → (∀ y, ¬ step n t st1 y) →
  nsteps (step n t) k2 st st2 → (∀ y, ¬ step n t st2 y) →
  k1 = k2 ∧ st1 = st2.
Proof.
  intros H1. revert k2 st2.
  induction H1 as [x|k1 x y z Hxy _ IH]; intros k2 st2 Hstuck1 H2 Hstuck2.
  - inv H2; [done|]. by destruct (Hstuck1 _ ltac:(eassumption)).
  - inv H2; [by destruct (Hstuck2 _ Hxy)|].
    match goal with
    | Hxy' : step n t x ?y', Hrest : nsteps _ _ ?y' st2 |- _ =>
        rewrite <- (step_deterministic _ _ _ _ _ Hxy Hxy') in Hrest;
        destruct (IH _ _ Hstuck1 Hrest Hstuck2) as [-> ->]
    end.
    done.
Qed.

Lemma exit_stuck (n t : Z) (st : state) :
  loop_cond t st = false → ∀ y, ¬ step n t st y.
Proof. intros Hc y [Hc' _]. congruence. Qed.

Lemma fault_stuck (n t : Z) (st : state) (e : exn) :
  body n st = Raise e → ∀ y, ¬ step n t st y.
Proof. intros Hb y [_ Hb']. congruence. Qed.

Lemma call_result_functional (n : Z) (o1 o2 : run) :
  call_result n o1 → call_result n o2 → o1 = o2.
Proof.
  intros [Hz1|k1 st1 Hnz1 Hr1 Hc1|k1 st1 e1 Hnz1 Hr1 Hc1 Hb1]
         [Hz2|k2 st2 Hnz2 Hr2 Hc2|k2 st2 e2 Hnz2 Hr2 Hc2 Hb2];
    try done.
  - destruct (nsteps_stuck_unique _ _ _ _ _ _ _
                Hr1 (exit_stuck n _ _ Hc1) Hr2 (exit_stuck n _ _ Hc2))
      as [_ ->].
    done.
  - destruct (nsteps_stuck_unique _ _ _ _ _ _ _
                Hr1 (exit_stuck n _ _ Hc1) Hr2 (fault_stuck n _ _ _ Hb2))
      as [_ ->].
    congruence.
  - destruct (nsteps_stuck_unique _ _ _ _ _ _ _
                Hr1 (fault_stuck n _ _ _ Hb1) Hr2 (exit_stuck n _ _ Hc2))
      as [_ ->].
    congruence.
  - destruct (nsteps_stuck_unique _ _ _ _ _ _ _
                Hr1 (fault_stuck n _ _ _ Hb1) Hr2 (fault_stuck n _ _ _ Hb2))
      as [_ ->].
    congruence.
Qed.

(** What the bounded loop computes is an outcome of the transition
    system. *)
Lemma create_magic_square_sound (n : Z) (o : run) :
  create_magic_square n = Some o → call_result n o.
Proof.
  unfold create_magic_square. case_decide as Hz.
  - intros [= <-]. by constructor.
  - simpl.
    destruct (while_loop _ _ _ _) as [[st|e]|] eqn:Hloop; [| |done].
    + intros [= <-].
      apply while_loop_steps in Hloop as (k & _ & Hsteps & Hc).
      by apply (call_returned n k st).
    + intros [= <-].
      apply while_loop_faults in Hloop as (k & st' & Hsteps & Hc & Hb).
      by apply (call_raised n k st').
Qed.

(** The fuel handed to the loop always suffices. *)
Lemma create_magic_square_total (n : Z) :
  ∃ o, create_magic_square n = Some o.
Proof.
  destruct (Z.odd n) eqn:Hodd.
  - destruct (decide (0 < n)) as [Hpos|Hneg].
    + eexists. by apply create_magic_square_after.
    + eexists. apply create_magic_square_negative_odd; [|done].
      assert (n ≠ 0) by (intros ->; done). lia.
  - eexists. apply create_magic_square_even.
    by rewrite Zmod_odd, Hodd.
Qed.

(** * The specification, property by property *)

(** C1: for every odd positive [n], [create_magic_square n] returns an
    [n]-by-[n] grid whose cells, read row by row, are a rearrangement of
    [1 .. n*n] (every integer once, no cell left empty), and every row, every
    column and both main diagonals sum to [n * (n*n + 1) / 2]. *)
Theorem create_magic_square_magic (n : Z) :
  0 < n → Z.odd n = true →
  ∃ g, create_magic_square n = Some (Run [] (Returns (Some g)))
       ∧ length g = Z.to_nat n
       ∧ Forall (λ row, length row = Z.to_nat n) g
       ∧ mjoin g ≡ₚ seqZ 1 (n * n)
       ∧ Forall (λ row, sumZ row = magic_sum n) g
       ∧ (∀ j, (j < Z.to_nat n)%nat → sumZ (column g j) = magic_sum n)
       ∧ sumZ (main_diagonal g) = magic_sum n
       ∧ sumZ (anti_diagonal g) = magic_sum n.
Proof.
  intros Hpos Hodd. exists (grid_after n (n * n)).
  destruct (grid_after_shape n (n * n)) as [Hlen Hrows].
  split; [by apply create_magic_square_after|].
  split; [done|]. split; [done|].
  split; [by apply grid_final_Permutation|].
  split; [|split; [|split]].
  - unfold grid_after. apply Forall_fmap, Forall_true. intros i. simpl.
    by apply row_sum.
  - intros j Hj. unfold grid_after.
    rewrite column_tabulate by lia. by apply column_sum.
  - unfold grid_after. rewrite main_diagonal_tabulate.
    by apply main_diagonal_sum.
  - unfold grid_after. rewrite anti_diagonal_tabulate.
    by apply anti_diagonal_sum.
Qed.

Lemma create_magic_square_magic_witness :
  0 < 5 ∧ Z.odd 5 = true
  ∧ ∃ g, create_magic_square 5 = Some (Run [] (Returns (Some g)))
         ∧ length g = Z.to_nat 5
         ∧ Forall (λ row, length row = Z.to_nat 5) g
         ∧ mjoin g ≡ₚ seqZ 1 (5 * 5)
         ∧ Forall (λ row, sumZ row = magic_sum 5) g
         ∧ (∀ j, (j < Z.to_nat 5)%nat → sumZ (column g j) = magic_sum 5)
         ∧ sumZ (main_diagonal g) = magic_sum 5
         ∧ sumZ (anti_diagonal g) = magic_sum 5.
Proof.
  split; [lia|]. split; [reflexivity|].
  apply (create_magic_square_magic 5); [lia | reflexivity].
Defined.

(** C2: for every even [n] the call prints the error line and returns
    [None], the [InvalidSize] condition; no grid comes back. *)
Theorem create_magic_square_even_rejected (n : Z) :
  Z.even n = true →
  create_magic_square n = Some (Run [even_message] InvalidSize)
  ∧ grid_of (create_magic_square n) = None.
Proof.
  intros Heven.
  assert (n mod 2 = 0) as Hz by by rewrite Zmod_even, Heven.
  by rewrite create_magic_square_even.
Qed.

Lemma create_magic_square_even_rejected_witness :
  Z.even 4 = true
  ∧ create_magic_square 4 = Some (Run [even_message] InvalidSize)
  ∧ grid_of (create_magic_square 4) = None.
Proof.
  split; [reflexivity|].
  apply (create_magic_square_even_rejected 4). reflexivity.
Defined.

(** C3, as stated, fails: not every non-positive size is answered with
    [InvalidSize]. The size [-3] passes the parity guard and the first
    placement raises [IndexError]. *)
Lemma nonpositive_not_always_InvalidSize :
  ¬ (∀ n, n ≤ 0 → result_of (create_magic_square n) = Some InvalidSize).
Proof.
  intros Hall. specialize (Hall (-3) ltac:(lia)).
  vm_compute in Hall. discriminate Hall.
Qed.

(** C3, amended: for [n <= 0] no grid is ever returned; an even [n] is
    answered with [InvalidSize], the error line printed and [None] returned;
    an odd [n] prints nothing and ends in an [IndexError] raised by the first
    placement on the empty grid. *)
Theorem create_magic_square_nonpositive (n : Z) :
  n ≤ 0 →
  grid_of (create_magic_square n) = None
  ∧ (Z.even n = true
     → create_magic_square n = Some (Run [even_message] InvalidSize))
  ∧ (Z.odd n = true
     → create_magic_square n = Some (Run [] (Raises IndexError))).
Proof.
  intros Hn. destruct (Z.odd n) eqn:Hodd.
  - assert (n ≠ 0) by (intros ->; done).
    rewrite create_magic_square_negative_odd by (done || lia).
    rewrite <- Z.negb_odd, Hodd. done.
  - rewrite create_magic_square_even by by rewrite Zmod_odd, Hodd.
    done.
Qed.

Lemma create_magic_square_nonpositive_witness :
  -3 ≤ 0
  ∧ grid_of (create_magic_square (-3)) = None
  ∧ (Z.even (-3) = true
     → create_magic_square (-3) = Some (Run [even_message] InvalidSize))
  ∧ (Z.odd (-3) = true
     → create_magic_square (-3) = Some (Run [] (Raises IndexError))).
Proof.
  split; [lia|]. apply (create_magic_square_nonpositive (-3)). lia.
Defined.

(** C4: at every one of the [n*n] iterations of an odd positive size the
    cursor moves by the Siamese rule.  After the number is placed, the cell
    diagonally up-right, [((row - 1) mod n, (col + 1) mod n)], is read.  Its
    content [v], as stored in the grid, is non-zero exactly when this or an
    earlier iteration placed its number there.  If the cell is empty the
    cursor goes there, otherwise it goes one row below the placement just
    made, [((row + 1) mod n, col)].  The next cursor depends on the grid
    through that one cell only. *)
Theorem siamese_step_rule (n : Z) (k : nat) (st : state) :
  0 < n → Z.odd n = true →
  reaches n k st → Z.of_nat k < n * n →
  ∃ st' g v,
    step n (n * n) st st'
    ∧ grid_set (magic_square st) (r st) (c st) (num st) = Ok g
    ∧ magic_square st' = g
    ∧ g !! Z.to_nat ((r st - 1) mod n)
        ≫= (.!! Z.to_nat ((c st + 1) mod n)) = Some v
    ∧ grid_get g ((r st - 1) mod n) ((c st + 1) mod n) = Ok v
    ∧ (v ≠ 0 ↔ ∃ k' st0, (k' ≤ k)%nat ∧ reaches n k' st0
                          ∧ cursor st0 = candidate n (cursor st))
    ∧ cursor st' = siamese_next n (cursor st) v
    ∧ (v = 0 → cursor st' = ((r st - 1) mod n, (c st + 1) mod n))
    ∧ (v ≠ 0 → cursor st' = ((r st + 1) mod n, c st)).
Proof.
  intros Hpos Hodd Hreach Hk.
  destruct (reaches_inv n Hpos Hodd k st Hreach) as [_ ->].
  assert (0 ≤ Z.of_nat k < n * n) as Hk' by lia.
  pose proof (step_after n Hpos Hodd (Z.of_nat k) Hk') as Hstep.
  exists (state_after n (Z.of_nat k + 1)).
  destruct (body_siamese _ _ _ (proj2 Hstep))
    as (g & v & Hset & Hget & Hg & Hcur & _).
  exists g, v. simpl in Hset, Hget, Hg. subst g. simpl.
  set (r1 := (place_row n (Z.of_nat k) - 1) mod n) in *.
  set (c1 := (place_col n (Z.of_nat k) + 1) mod n) in *.
  assert (0 ≤ r1 < n) as Hr1 by apply Z.mod_pos_bound, Hpos.
  assert (0 ≤ c1 < n) as Hc1 by apply Z.mod_pos_bound, Hpos.
  rewrite grid_get_after in Hget by done. injection Hget as <-.
  split; [exact Hstep|]. split; [exact Hset|]. split; [done|].
  split.
  { unfold grid_after, grid. rewrite lookup_tabulate by lia.
    change (Some ?x ≫= ?f) with (f x). cbv beta.
    rewrite lookup_tabulate by lia. by rewrite !Z2Nat.id by lia. }
  split; [by apply grid_get_after|].
  split.
  { pose proof (place_order_bounds n Hpos r1 c1) as Hord.
    unfold cell_after. split.
    - intros Hv. case_decide as Hlt; [|done].
      exists (Z.to_nat (place_order n r1 c1)),
        (state_after n (place_order n r1 c1)).
      split; [lia|]. split.
      + pose proof (reaches_after n Hpos Hodd
                      (Z.to_nat (place_order n r1 c1))) as Hr.
        rewrite Z2Nat.id in Hr by lia. apply Hr. lia.
      + unfold cursor, candidate. simpl.
        by destruct (place_of_order n Hpos Hodd r1 c1 Hr1 Hc1) as [-> ->].
    - intros (k' & st0 & Hle & Hreach0 & Hcur0).
      destruct (reaches_inv n Hpos Hodd k' st0 Hreach0) as [_ ->].
      unfold cursor, candidate in Hcur0. simpl in Hcur0.
      injection Hcur0 as Hr0 Hc0. fold r1 in Hr0. fold c1 in Hc0.
      rewrite <- Hr0, <- Hc0.
      assert (0 ≤ Z.of_nat k' < n * n) as Hk0 by (clear -Hle Hk'; lia).
      rewrite place_order_place by done.
      rewrite decide_True; clear -Hle; lia. }
  split; [exact Hcur|].
  rewrite Hcur. unfold siamese_next. split.
  - intros ->. done.
  - intros Hv. by rewrite decide_False.
Qed.

Lemma siamese_step_rule_witness :
  reaches 3 2 (State [[0; 1; 0]; [0; 0; 0]; [0; 0; 2]] 1 0 3)
  ∧ body 3 (State [[0; 1; 0]; [0; 0; 0]; [0; 0; 2]] 1 0 3)
    = Ok (State [[0; 1; 0]; [3; 0; 0]; [0; 0; 2]] 2 0 4)
  ∧ ∃ st' g v,
      step 3 (3 * 3) (State [[0; 1; 0]; [0; 0; 0]; [0; 0; 2]] 1 0 3) st'
      ∧ grid_set [[0; 1; 0]; [0; 0; 0]; [0; 0; 2]] 1 0 3 = Ok g
      ∧ magic_square st' = g
      ∧ g !! Z.to_nat ((1 - 1) mod 3) ≫= (.!! Z.to_nat ((0 + 1) mod 3))
        = Some v
      ∧ grid_get g ((1 - 1) mod 3) ((0 + 1) mod 3) = Ok v
      ∧ (v ≠ 0 ↔ ∃ k' st0, (k' ≤ 2)%nat ∧ reaches 3 k' st0
                            ∧ cursor st0 = candidate 3 (1, 0))
      ∧ cursor st' = siamese_next 3 (1, 0) v
      ∧ (v = 0 → cursor st' = ((1 - 1) mod 3, (0 + 1) mod 3))
      ∧ (v ≠ 0 → cursor st' = ((1 + 1) mod 3, 0)).
Proof.
  assert (reaches 3 2 (State [[0; 1; 0]; [0; 0; 0]; [0; 0; 2]] 1 0 3))
    as Hreach.
  { eapply nsteps_l; [split; vm_compute; reflexivity|].
    eapply nsteps_l; [split; vm_compute; reflexivity|].
    apply nsteps_O. }
  split; [exact Hreach|]. split; [vm_compute; reflexivity|].
  exact (siamese_step_rule 3 2
           (State [[0; 1; 0]; [0; 0; 0]; [0; 0; 2]] 1 0 3)
           ltac:(lia) eq_refl Hreach ltac:(lia)).
Defined.



(** C6: [create_magic_square 3] is the Lo Shu square
    [[8, 1, 6], [3, 5, 7], [4, 9, 2]]; its rows, its columns and its two
    diagonals all sum to 15, which is [magic_sum 3]. *)
Theorem create_magic_square_3 :
  create_magic_square 3
  = Some (Run [] (Returns (Some [[8; 1; 6]; [3; 5; 7]; [4; 9; 2]])))
  ∧ sumZ <$> [[8; 1; 6]; [3; 5; 7]; [4; 9; 2]] = [15; 15; 15]
  ∧ (λ j, sumZ (column [[8; 1; 6]; [3; 5; 7]; [4; 9; 2]] j))
      <$> [0; 1; 2]%nat = [15; 15; 15]
  ∧ sumZ (main_diagonal [[8; 1; 6]; [3; 5; 7]; [4; 9; 2]]) = 15
  ∧ sumZ (anti_diagonal [[8; 1; 6]; [3; 5; 7]; [4; 9; 2]]) = 15
  ∧ magic_sum 3 = 15.
Proof. vm_compute. repeat split; reflexivity. Qed.

(** C7: [create_magic_square 1] is the 1-by-1 grid holding 1. *)
Theorem create_magic_square_1 :
  create_magic_square 1 = Some (Run [] (Returns (Some [[1]]))).
Proof. vm_compute. reflexivity. Qed.

(** C8: for every odd positive [n] the loop terminates after exactly [n*n]
    iterations: the state reached after [n*n] passes fails the guard and its
    grid is what the call returns, no earlier state fails the guard, and pass
    number [k + 1] runs without a fault and places the number [k + 1]. *)
Theorem loop_runs_n_squared (n : Z) :
  0 < n → Z.odd n = true →
  (∃ st, reaches n (Z.to_nat (n * n)) st
         ∧ loop_cond (n * n) st = false
         ∧ create_magic_square n
           = Some (Run [] (Returns (Some (magic_square st)))))
  ∧ (∀ k st, reaches n k st →
       num st = Z.of_nat k + 1
       ∧ (k ≤ Z.to_nat (n * n))%nat
       ∧ (loop_cond (n * n) st = false → k = Z.to_nat (n * n)))
  ∧ (∀ k st, reaches n k st → (k < Z.to_nat (n * n))%nat →
       ∃ st', step n (n * n) st st'
              ∧ grid_get (magic_square st') (r st) (c st)
                = Ok (Z.of_nat k + 1)).
Proof.
  intros Hpos Hodd. split; [|split].
  - exists (state_after n (n * n)). split; [|split].
    + pose proof (reaches_after n Hpos Hodd (Z.to_nat (n * n))) as Hreach.
      rewrite Z2Nat.id in Hreach by nia. apply Hreach. lia.
    + rewrite loop_cond_after. apply bool_decide_eq_false. lia.
    + by apply create_magic_square_after.
  - intros k st Hreach.
    destruct (reaches_inv n Hpos Hodd k st Hreach) as [Hk ->].
    split; [done|]. split; [lia|].
    rewrite loop_cond_after. intros Hc%bool_decide_eq_false. lia.
  - intros k st Hreach Hk.
    destruct (reaches_inv n Hpos Hodd k st Hreach) as [_ ->].
    assert (0 ≤ Z.of_nat k < n * n) as Hk' by lia.
    exists (state_after n (Z.of_nat k + 1)).
    split; [by apply step_after|]. simpl.
    rewrite grid_get_after
      by (apply place_row_bounds || apply place_col_bounds; done).
    f_equal. by apply cell_after_placed.
Qed.

Lemma loop_runs_n_squared_witness :
  0 < 3 ∧ Z.odd 3 = true
  ∧ (∃ st, reaches 3 (Z.to_nat (3 * 3)) st
           ∧ loop_cond (3 * 3) st = false
           ∧ create_magic_square 3
             = Some (Run [] (Returns (Some (magic_square st)))))
  ∧ (∀ k st, reaches 3 k st →
       num st = Z.of_nat k + 1
       ∧ (k ≤ Z.to_nat (3 * 3))%nat
       ∧ (loop_cond (3 * 3) st = false → k = Z.to_nat (3 * 3)))
  ∧ (∀ k st, reaches 3 k st → (k < Z.to_nat (3 * 3))%nat →
       ∃ st', step 3 (3 * 3) st st'
              ∧ grid_get (magic_square st') (r st) (c st)
                = Ok (Z.of_nat k + 1)).
Proof.
  split; [lia|]. split; [reflexivity|].
  apply (loop_runs_n_squared 3); [lia | reflexivity].
Defined.

(** The bounded loop against the transition system, for every [n]: the
    call ends (the loop never runs out of passes), and what it computes,
    printed lines included, is the outcome the transition system gives
    for [n]. *)
Lemma create_magic_square_outcome (n : Z) :
  ∃ o, create_magic_square n = Some o
       ∧ ∀ o', call_result n o' ↔ o' = o.
Proof.
  destruct (create_magic_square_total n) as [o Ho].
  exists o. split; [done|].
  pose proof (create_magic_square_sound n o Ho) as Hcall.
  intros o'. split.
  - intros Hcall'. by apply (call_result_functional n).
  - by intros ->.
Qed.

(** C10: for an odd positive [n], after [k] iterations the numbers
    [1 .. k] each sit in exactly one cell and every other cell still holds 0;
    the cell under the cursor is empty whenever another placement follows, so
    no placement overwrites a number. *)
Theorem placements_never_overwrite (n : Z) (k : nat) (st : state) :
  0 < n → Z.odd n = true →
  reaches n k st →
  (loop_cond (n * n) st = true →
     grid_get (magic_square st) (r st) (c st) = Ok 0)
  ∧ (∀ v, 1 ≤ v ≤ Z.of_nat k →
       ∃ i j, 0 ≤ i < n ∧ 0 ≤ j < n
              ∧ ∀ i' j', 0 ≤ i' < n → 0 ≤ j' < n →
                  (grid_get (magic_square st) i' j' = Ok v
                   ↔ (i', j') = (i, j)))
  ∧ (∀ i j, 0 ≤ i < n → 0 ≤ j < n →
       ∃ x, grid_get (magic_square st) i j = Ok x
            ∧ (x = 0 ∨ 1 ≤ x ≤ Z.of_nat k)).
Proof.
  intros Hpos Hodd Hreach.
  destruct (reaches_inv n Hpos Hodd k st Hreach) as [Hk ->]. simpl.
  split; [|split].
  - rewrite loop_cond_after by done. intros Hc%bool_decide_eq_true.
    rewrite grid_get_after
      by (apply place_row_bounds || apply place_col_bounds; done).
    f_equal. apply cell_after_fresh; (done || lia).
  - intros v Hv. assert (0 ≤ v - 1 < n * n) as Hv' by lia.
    exists (place_row n (v - 1)), (place_col n (v - 1)).
    split; [by apply place_row_bounds|]. split; [by apply place_col_bounds|].
    intros i' j' Hi' Hj'. rewrite grid_get_after by done.
    unfold cell_after. split.
    + case_decide as Hlt; intros [= Heq]; [|lia].
      destruct (place_of_order n Hpos Hodd i' j' Hi' Hj') as [Hr Hc].
      replace (v - 1) with (place_order n i' j') by lia.
      by rewrite Hr, Hc.
    + intros [= -> ->]. rewrite place_order_place by done.
      rewrite decide_True by lia. f_equal. lia.
  - intros i j Hi Hj. exists (cell_after n (Z.of_nat k) i j).
    split; [by apply grid_get_after|].
    unfold cell_after. pose proof (place_order_bounds n Hpos i j).
    case_decide; lia.
Qed.

Lemma placements_never_overwrite_witness :
  reaches 3 2 (State [[0; 1; 0]; [0; 0; 0]; [0; 0; 2]] 1 0 3)
  ∧ (loop_cond (3 * 3) (State [[0; 1; 0]; [0; 0; 0]; [0; 0; 2]] 1 0 3) = true
     → grid_get [[0; 1; 0]; [0; 0; 0]; [0; 0; 2]] 1 0 = Ok 0)
  ∧ (∀ v, 1 ≤ v ≤ Z.of_nat 2 →
       ∃ i j, 0 ≤ i < 3 ∧ 0 ≤ j < 3
              ∧ ∀ i' j', 0 ≤ i' < 3 → 0 ≤ j' < 3 →
                  (grid_get [[0; 1; 0]; [0; 0; 0]; [0; 0; 2]] i' j' = Ok v
                   ↔ (i', j') = (i, j)))
  ∧ (∀ i j, 0 ≤ i < 3 → 0 ≤ j < 3 →
       ∃ x, grid_get [[0; 1; 0]; [0; 0; 0]; [0; 0; 2]] i j = Ok x
            ∧ (x = 0 ∨ 1 ≤ x ≤ Z.of_nat 2)).
Proof.
  assert (reaches 3 2 (State [[0; 1; 0]; [0; 0; 0]; [0; 0; 2]] 1 0 3))
    as Hreach.
  { eapply nsteps_l; [split; vm_compute; reflexivity|].
    eapply nsteps_l; [split; vm_compute; reflexivity|].
    apply nsteps_O. }
  split; [exact Hreach|].
  exact (placements_never_overwrite 3 2
           (State [[0; 1; 0]; [0; 0; 0]; [0; 0; 2]] 1 0 3)
           ltac:(lia) eq_refl Hreach).
Defined.

(** * Further properties of the generator *)

(** X1: for an odd positive [n] every cell of the returned grid is given by
    a formula in its coordinates:
    [grid[i][j] = n * ((i + j - n // 2) % n) + (i + 2*j + 1) % n + 1]. *)
Theorem cell_closed_form (n i j : Z) :
  0 < n → Z.odd n = true → 0 ≤ i < n → 0 ≤ j < n →
  ∃ g, grid_of (create_magic_square n) = Some g
       ∧ grid_get g i j
         = Ok (n * ((i + j - n / 2) mod n) + (i + 2 * j + 1) mod n + 1).
Proof.
  intros Hpos Hodd Hi Hj. exists (grid_after n (n * n)).
  rewrite create_magic_square_after by done. split; [done|].
  rewrite grid_get_after by done. by rewrite cell_final.
Qed.

Lemma cell_closed_form_witness :
  ∃ g, grid_of (create_magic_square 5) = Some g
       ∧ grid_get g 3 1
         = Ok (5 * ((3 + 1 - 5 / 2) mod 5) + (3 + 2 * 1 + 1) mod 5 + 1).
Proof.
  apply (cell_closed_form 5 3 1); [lia | reflexivity | lia | lia].
Defined.

(** X2: the returned grid is symmetric about its centre: a cell and the
    cell opposite to it always add up to [n*n + 1]. *)
Theorem opposite_cells_complement (n i j : Z) :
  0 < n → Z.odd n = true → 0 ≤ i < n → 0 ≤ j < n →
  ∃ g a b, grid_of (create_magic_square n) = Some g
           ∧ grid_get g i j = Ok a
           ∧ grid_get g (n - 1 - i) (n - 1 - j) = Ok b
           ∧ a + b = n * n + 1.
Proof.
  intros Hpos Hodd Hi Hj.
  exists (grid_after n (n * n)), (cell_after n (n * n) i j),
    (cell_after n (n * n) (n - 1 - i) (n - 1 - j)).
  rewrite create_magic_square_after by done. split; [done|].
  rewrite !grid_get_after by lia. split; [done|]. split; [done|].
  rewrite !cell_final by done. unfold place_order.
  pose proof (odd_half n Hodd) as Hhalf.
  assert ((i + j - n / 2) mod n
          + (n - 1 - i + (n - 1 - j) - n / 2) mod n = n - 1) as Hq.
  { apply mod_complement; [done|].
    replace (_ + _ + 1) with (1 * n) by lia. apply Z_mod_mult. }
  assert ((i + 2 * j + 1) mod n
          + (n - 1 - i + 2 * (n - 1 - j) + 1) mod n = n - 1) as Hj'.
  { apply mod_complement; [done|].
    replace (_ + _ + 1) with (3 * n) by lia. apply Z_mod_mult. }
  nia.
Qed.

Lemma opposite_cells_complement_witness :
  ∃ g a b, grid_of (create_magic_square 5) = Some g
           ∧ grid_get g 1 4 = Ok a
           ∧ grid_get g (5 - 1 - 1) (5 - 1 - 4) = Ok b
           ∧ a + b = 5 * 5 + 1.
Proof.
  apply (opposite_cells_complement 5 1 4); [lia | reflexivity | lia | lia].
Defined.

(** X3: the centre cell of the returned grid holds the middle number
    [(n*n + 1) / 2]. *)
Theorem centre_holds_middle_number (n : Z) :
  0 < n → Z.odd n = true →
  ∃ g, grid_of (create_magic_square n) = Some g
       ∧ grid_get g (n / 2) (n / 2) = Ok ((n * n + 1) / 2).
Proof.
  intros Hpos Hodd. exists (grid_after n (n * n)).
  rewrite create_magic_square_after by done. split; [done|].
  pose proof (odd_half n Hodd) as Hhalf.
  rewrite grid_get_after by lia. f_equal.
  rewrite cell_final by done. unfold place_order.
  remember (n / 2) as h in *.
  assert ((h + h - h) mod n = h) as ->.
  { replace (h + h - h) with h by lia. apply Z.mod_small. lia. }
  assert ((h + 2 * h + 1) mod n = h) as ->.
  { apply (mod_to_small _ _ _ 1); [lia|]. f_equal. lia. }
  apply half_exact. nia.
Qed.

Lemma centre_holds_middle_number_witness :
  ∃ g, grid_of (create_magic_square 7) = Some g
       ∧ grid_get g (7 / 2) (7 / 2) = Ok ((7 * 7 + 1) / 2).
Proof.
  apply (centre_holds_middle_number 7); [lia | reflexivity].
Defined.

(** X4: the last number placed, [n*n], ends up in the middle of the bottom
    row, straight below the 1 of the top row. *)
Theorem last_at_bottom_middle (n : Z) :
  0 < n → Z.odd n = true →
  ∃ g, grid_of (create_magic_square n) = Some g
       ∧ grid_get g (n - 1) (n / 2) = Ok (n * n).
Proof.
  intros Hpos Hodd. exists (grid_after n (n * n)).
  rewrite create_magic_square_after by done. split; [done|].
  pose proof (odd_half n Hodd) as Hhalf.
  rewrite grid_get_after by lia. f_equal.
  rewrite cell_final by done. unfold place_order.
  remember (n / 2) as h in *.
  assert ((n - 1 + h - h) mod n = n - 1) as ->.
  { replace (n - 1 + h - h) with (n - 1) by lia. apply Z.mod_small. lia. }
  assert ((n - 1 + 2 * h + 1) mod n = n - 1) as ->.
  { apply (mod_to_small _ _ _ 1); [lia|]. f_equal. lia. }
  nia.
Qed.

Lemma last_at_bottom_middle_witness :
  ∃ g, grid_of (create_magic_square 9) = Some g
       ∧ grid_get g (9 - 1) (9 / 2) = Ok (9 * 9).
Proof.
  apply (last_at_bottom_middle 9); [lia | reflexivity].
Defined.

(** X5: in the returned grid the successor of a number [v < n*n] is the
    up-right neighbour of [v] (wrapping round the edges) unless [v] is a
    multiple of [n], in which case it is the cell straight below [v]. *)
Theorem successor_neighbour (n i j : Z) :
  0 < n → Z.odd n = true → 0 ≤ i < n → 0 ≤ j < n →
  ∃ g v, grid_of (create_magic_square n) = Some g
         ∧ grid_get g i j = Ok v
         ∧ (v < n * n → v mod n ≠ 0 →
              grid_get g ((i - 1) mod n) ((j + 1) mod n) = Ok (v + 1))
         ∧ (v < n * n → v mod n = 0 →
              grid_get g ((i + 1) mod n) j = Ok (v + 1)).
Proof.
  intros Hpos Hodd Hi Hj.
  exists (grid_after n (n * n)), (cell_after n (n * n) i j).
  rewrite create_magic_square_after by done. split; [done|].
  rewrite grid_get_after by done. split; [done|].
  rewrite cell_final by done.
  pose proof (place_order_bounds n Hpos i j) as Hk.
  destruct (place_of_order n Hpos Hodd i j Hi Hj) as [Hr Hc].
  remember (place_order n i j) as k in *.
  destruct (run_bounds n k Hpos Hk) as (_ & Hm & Hdm).
  assert ((k + 1) mod n = (k mod n + 1) mod n) as Hmod by Z.mod_equality.
  split; intros Hlt Hv; rewrite Hmod in Hv.
  - assert (k mod n + 1 < n) as Hrun.
    { destruct (decide (k mod n + 1 < n)); [done|].
      destruct Hv. replace (k mod n + 1) with n by lia.
      apply Z_mod_same_full. }
    destruct (place_succ_diag n Hpos Hodd k Hk Hrun) as [Hr' Hc'].
    rewrite Hr in Hr'. rewrite Hc in Hc'. rewrite <- Hr', <- Hc'.
    rewrite grid_get_after
      by (apply place_row_bounds || apply place_col_bounds; done).
    f_equal. rewrite cell_final, place_order_place by (done || lia). lia.
  - assert (k mod n + 1 = n) as Hrun.
    { destruct (decide (k mod n + 1 < n)); [|lia].
      rewrite Z.mod_small in Hv; lia. }
    destruct (place_succ_down n Hpos Hodd k Hk Hrun) as [Hr' Hc'].
    rewrite Hr in Hr'. rewrite Hc in Hc'. rewrite <- Hr', <- Hc'.
    rewrite grid_get_after
      by (apply place_row_bounds || apply place_col_bounds; done).
    f_equal. rewrite cell_final, place_order_place by (done || lia). lia.
Qed.

Lemma successor_neighbour_witness :
  ∃ g v, grid_of (create_magic_square 3) = Some g
         ∧ grid_get g 1 0 = Ok v
         ∧ (v < 3 * 3 → v mod 3 ≠ 0 →
              grid_get g ((1 - 1) mod 3) ((0 + 1) mod 3) = Ok (v + 1))
         ∧ (v < 3 * 3 → v mod 3 = 0 →
              grid_get g ((1 + 1) mod 3) 0 = Ok (v + 1)).
Proof.
  apply (successor_neighbour 3 1 0); [lia | reflexivity | lia | lia].
Defined.

(** X6: what a call does is decided by the sign and parity of [n] alone.
    A grid comes back, with nothing printed, exactly for the odd positive
    sizes; the error line is printed and [None] returned exactly for the even
    ones; and the call raises [IndexError], with nothing printed, exactly for
    the odd negative ones. *)
Theorem outcome_by_sign_and_parity (n : Z) :
  ((∃ g, create_magic_square n = Some (Run [] (Returns (Some g))))
   ↔ 0 < n ∧ Z.odd n = true)
  ∧ (is_Some (grid_of (create_magic_square n)) ↔ 0 < n ∧ Z.odd n = true)
  ∧ (create_magic_square n = Some (Run [even_message] InvalidSize)
     ↔ Z.even n = true)
  ∧ (result_of (create_magic_square n) = Some InvalidSize
     ↔ Z.even n = true)
  ∧ (create_magic_square n = Some (Run [] (Raises IndexError))
     ↔ n < 0 ∧ Z.odd n = true)
  ∧ (result_of (create_magic_square n) = Some (Raises IndexError)
     ↔ n < 0 ∧ Z.odd n = true).
Proof.
  destruct (Z.odd n) eqn:Hodd.
  - assert (Z.even n = false) as Heven by by rewrite <- Z.negb_odd, Hodd.
    assert (n ≠ 0) by (intros ->; done).
    destruct (decide (0 < n)) as [Hpos|Hneg].
    + rewrite create_magic_square_after by done. simpl.
      rewrite Heven. split_and!; split; try done;
        try (intros [? _]; lia); by eauto.
    + rewrite create_magic_square_negative_odd by (done || lia). simpl.
      rewrite Heven. split_and!; split; try done;
        try (intros [? _]; lia); try (intros _; split; [lia | done]).
      by intros [g ?].
  - assert (Z.even n = true) as Heven by by rewrite <- Z.negb_odd, Hodd.
    rewrite create_magic_square_even by by rewrite Zmod_odd, Hodd.
    simpl. rewrite Heven. split_and!; split; try done;
      try (by intros [? ?]).
Qed.

(** X7: while the loop runs on an odd positive [n] the cursor never leaves
    the grid and the grid keeps its [n]-by-[n] shape, so every subscript of
    the body is a plain front index: no [IndexError], and no wrap-around
    through negative subscripts. *)
Theorem cursor_stays_inside (n : Z) (k : nat) (st : state) :
  0 < n → Z.odd n = true → reaches n k st →
  0 ≤ r st < n ∧ 0 ≤ c st < n
  ∧ length (magic_square st) = Z.to_nat n
  ∧ Forall (λ row, length row = Z.to_nat n) (magic_square st).
Proof.
  intros Hpos Hodd Hreach.
  destruct (reaches_inv n Hpos Hodd k st Hreach) as [_ ->]. simpl.
  split; [by apply place_row_bounds|]. split; [by apply place_col_bounds|].
  by apply grid_after_shape.
Qed.

Lemma cursor_stays_inside_witness :
  0 ≤ 1 < 3 ∧ 0 ≤ 0 < 3
  ∧ length [[0; 1; 0]; [0; 0; 0]; [0; 0; 2]] = Z.to_nat 3
  ∧ Forall (λ row, length row = Z.to_nat 3)
      [[0; 1; 0]; [0; 0; 0]; [0; 0; 2]].
Proof.
  refine (cursor_stays_inside 3 2
            (State [[0; 1; 0]; [0; 0; 0]; [0; 0; 2]] 1 0 3)
            ltac:(lia) eq_refl _).
  eapply nsteps_l; [split; vm_compute; reflexivity|].
  eapply nsteps_l; [split; vm_compute; reflexivity|].
  apply nsteps_O.
Defined.

(** * The application *)

Lemma grid_after_magic (n : Z) :
  0 < n → Z.odd n = true → magic n (grid_after n (n * n)).
Proof.
  intros Hpos Hodd.
  destruct (grid_after_shape n (n * n)) as [Hlen Hrows].
  split; [done|]. split; [done|].
  split; [by apply grid_final_Permutation|].
  split; [|split; [|split]]; unfold grid_after.
  - apply Forall_fmap, Forall_true. intros i. by apply row_sum.
  - intros j Hj. rewrite column_tabulate by lia. by apply column_sum.
  - rewrite main_diagonal_tabulate. by apply main_diagonal_sum.
  - rewrite anti_diagonal_tabulate. by apply anti_diagonal_sum.
Qed.

Lemma valid_sizes_odd_positive (n : Z) :
  n ∈ valid_sizes → 0 < n ∧ Z.odd n = true.
Proof.
  unfold valid_sizes. rewrite !elem_of_cons, elem_of_nil.
  intros [->|[->|[->|[->|[]]]]]; split; (lia || reflexivity).
Qed.

Lemma handler_get_numeric_input (p : platform) (rp : reply) (e : app_exn) :
  get_numeric_input p rp = Threw e →
  handler e = Exited 0
  ∨ (e = OverflowError
     ∧ numinput_callable p = true ∧ ∃ b, rp = Number (Infinity b)).
Proof.
  unfold get_numeric_input.
  destruct (numinput_callable p), rp as [[m e'|b|]| | |]; simpl;
    try case_decide; intros [= <-]; eauto 10.
Qed.

Lemma handler_textinput (rp : reply) (e : app_exn) :
  textinput rp = Threw e → handler e = Exited 0.
Proof. destruct rp; simpl; by intros [= <-]. Qed.

Lemma numeric_dialog_is_dialog (p : platform) (title prompt : string) :
  is_dialog (numeric_dialog p title prompt).
Proof. unfold numeric_dialog. by destruct (numinput_callable p). Qed.

Lemma size_loop_ok (p : platform) (script : list reply) :
  loop_ok p script (size_loop p script).
Proof.
  remember (length script) as len eqn:Hlen.
  revert script Hlen.
  induction len as [len IH] using lt_wf_ind. intros script ->.
  pose proof (numeric_dialog_is_dialog p "Magic Square Size" size_prompt)
    as Hask.
  destruct script as [|rp rest]; simpl.
  { split; simpl; [by repeat constructor | done]. }
  destruct (get_numeric_input p rp) as [[n|]|e|] eqn:Hget.
  - case_bool_decide as Hn.
    { split; simpl; [by repeat constructor | done]. }
    destruct rest as [|rp' rest'].
    { split; simpl; [by repeat constructor | done]. }
    destruct (textinput rp') as [s|e|] eqn:Htxt.
    + destruct (IH (length rest') ltac:(simpl; lia) rest' eq_refl)
        as [Hdial Hend].
      destruct (size_loop p rest') as [t o]. simpl in *.
      split; simpl; [by repeat constructor|].
      destruct o as [m|[code|e| | |]]; try done.
      destruct Hend as (-> & Hcall & b & Hb).
      repeat split; try done. exists b. by do 2 apply list_elem_of_further.
    + split; simpl; [by repeat constructor|].
      by rewrite (handler_textinput _ _ Htxt).
    + split; simpl; [by repeat constructor | done].
  - split; simpl; [by repeat constructor | done].
  - split; simpl; [by repeat constructor|].
    destruct (handler_get_numeric_input _ _ _ Hget)
      as [->|(-> & Hcall & b & ->)]; [done|].
    simpl. repeat split; try done. exists b. apply list_elem_of_here.
  - split; simpl; [by repeat constructor | done].
Qed.

Lemma grid_after_nonempty (n k : Z) :
  0 < n → ∃ row rows, grid_after n k = row :: rows.
Proof.
  intros Hpos. unfold grid_after. rewrite seqZ_cons by done. csimpl. eauto.
Qed.

Lemma run_app_break (p : platform) (script : list reply) t n :
  size_loop p script = (t, Break n) →
  n ∈ valid_sizes
  ∧ Forall is_dialog t
  ∧ run_magic_square_app p script
    = (t ++ [Drawn (grid_after n (n * n)) n], Completed).
Proof.
  intros Hloop. pose proof (size_loop_ok p script) as [Hdial Hn].
  rewrite Hloop in Hdial, Hn. simpl in *.
  destruct (valid_sizes_odd_positive n Hn) as [Hpos Hodd].
  split; [done|]. split; [done|].
  unfold run_magic_square_app.
  rewrite Hloop, create_magic_square_after by done.
  by destruct (grid_after_nonempty n (n * n) Hpos) as (row & rows & ->).
Qed.

Lemma run_app_stop (p : platform) (script : list reply) t o :
  size_loop p script = (t, Stop o) →
  Forall is_dialog t ∧ run_magic_square_app p script = (t, o).
Proof.
  intros Hloop. pose proof (size_loop_ok p script) as [Hdial _].
  rewrite Hloop in Hdial. unfold run_magic_square_app. by rewrite Hloop.
Qed.

Lemma drawn_not_dialog (t : list event) g n :
  Forall is_dialog t → Drawn g n ∉ t.
Proof.
  intros Hdial Hin. by apply (proj1 (Forall_forall _ _) Hdial) in Hin.
Qed.

(** X8: whatever the user does, the application calls
    [draw_magic_square] at most once, as the last thing it does itself, and
    what it hands over is the generator's grid for one of the sizes 3, 5, 7,
    9: a magic square of that order. *)
Theorem app_draws_magic_square (p : platform) (script : list reply) g n :
  Drawn g n ∈ (run_magic_square_app p script).1 →
  n ∈ valid_sizes
  ∧ grid_of (create_magic_square n) = Some g
  ∧ magic n g
  ∧ ∃ t, (run_magic_square_app p script).1 = t ++ [Drawn g n]
         ∧ Forall is_dialog t.
Proof.
  destruct (size_loop p script) as [t [m|o]] eqn:Hloop.
  - destruct (run_app_break _ _ _ _ Hloop) as (Hm & Hdial & ->). simpl.
    intros [Hin|Hin%list_elem_of_singleton]%elem_of_app.
    { by destruct (drawn_not_dialog _ _ _ Hdial Hin). }
    injection Hin as -> ->.
    destruct (valid_sizes_odd_positive m Hm) as [Hpos Hodd].
    split; [done|]. rewrite create_magic_square_after by done.
    split; [done|]. split; [by apply grid_after_magic|].
    by exists t.
  - destruct (run_app_stop _ _ _ _ Hloop) as (Hdial & ->). simpl.
    intros Hin. by destruct (drawn_not_dialog _ _ _ Hdial Hin).
Qed.

Lemma app_draws_magic_square_witness :
  let p := Platform true (λ _, None) in
  let script := [Number (Finite 13 (-1)); Dismissed; Number (Finite 5 0)] in
  Drawn (grid_after 5 25) 5 ∈ (run_magic_square_app p script).1
  ∧ 5 ∈ valid_sizes
  ∧ grid_of (create_magic_square 5) = Some (grid_after 5 25)
  ∧ magic 5 (grid_after 5 25)
  ∧ ∃ t, (run_magic_square_app p script).1 = t ++ [Drawn (grid_after 5 25) 5]
         ∧ Forall is_dialog t.
Proof.
  intros p script.
  assert (Drawn (grid_after 5 25) 5 ∈ (run_magic_square_app p script).1)
    as Hin.
  { vm_compute. do 3 apply list_elem_of_further. apply list_elem_of_here. }
  split; [exact Hin|].
  exact (app_draws_magic_square p script (grid_after 5 25) 5 Hin).
Defined.

(** X9: the application never reaches the failure paths of the
    generator.  Whatever the user does, the generator's error line is never
    printed, no exception of the generator (its [IndexError]) ends the
    application, and the generator's loop always runs to its end. *)
Theorem app_ends_cleanly (p : platform) (script : list reply) :
  (∀ line, Printed line ∉ (run_magic_square_app p script).1)
  ∧ (∀ e, (run_magic_square_app p script).2 ≠ Crashed (Generator e))
  ∧ (run_magic_square_app p script).2 ≠ Unfinished.
Proof.
  assert (∀ t line, Forall is_dialog t → Printed line ∉ t) as Hquiet.
  { intros t line Hdial Hin.
    by apply (proj1 (Forall_forall _ _) Hdial) in Hin. }
  destruct (size_loop p script) as [t [m|o]] eqn:Hloop.
  - destruct (run_app_break _ _ _ _ Hloop) as (Hm & Hdial & ->). simpl.
    split; [|done].
    intros line [Hin|Hin%list_elem_of_singleton]%elem_of_app; [|done].
    by destruct (Hquiet _ _ Hdial Hin).
  - destruct (run_app_stop _ _ _ _ Hloop) as (Hdial & ->). simpl.
    split; [intros line; by apply Hquiet|].
    pose proof (size_loop_ok p script) as [_ Hend].
    rewrite Hloop in Hend. simpl in Hend.
    split; [intros e ->; by destruct Hend | by intros ->].
Qed.

Lemma size_loop_rejected (p : platform) (tr : reply * reply) rest :
  rejected p tr →
  size_loop p (tr.1 :: tr.2 :: rest)
  = (retry_dialogs p 1 ++ (size_loop p rest).1, (size_loop p rest).2).
Proof.
  intros (n & s & Hget & Hn & Htxt). simpl.
  rewrite Hget, bool_decide_eq_false_2, Htxt by done.
  by destruct (size_loop p rest).
Qed.

Lemma size_loop_retries (p : platform) (tries : list (reply * reply)) rest :
  Forall (rejected p) tries →
  size_loop p (replies tries ++ rest)
  = (retry_dialogs p (length tries) ++ (size_loop p rest).1,
     (size_loop p rest).2).
Proof.
  unfold replies.
  induction 1 as [|tr tries Htr _ IH].
  - csimpl. by destruct (size_loop p rest).
  - rewrite bind_cons, <- app_assoc.
    change ([tr.1; tr.2] ++ ?l) with (tr.1 :: tr.2 :: l).
    rewrite (size_loop_rejected p tr _ Htr), IH. reflexivity.
Qed.

Lemma run_app_prefix (p : platform) (script script' : list reply) t :
  size_loop p script
  = (t ++ (size_loop p script').1, (size_loop p script').2) →
  run_magic_square_app p script
  = (t ++ (run_magic_square_app p script').1,
     (run_magic_square_app p script').2).
Proof.
  intros Hloop. unfold run_magic_square_app. rewrite Hloop.
  destruct (size_loop p script') as [t' [n|o]]; simpl; [|done].
  destruct (create_magic_square n) as [[out [[[|row rows]|]|e]]|]; simpl;
    by rewrite <- ?app_assoc.
Qed.

(** X10: entries that are turned down leave no mark.  After any number of
    tries that named a size outside 3, 5, 7, 9 (each costing one size dialog
    and one "Invalid" dialog) the application carries on exactly as if it
    had just been started. *)
Theorem rejected_tries_start_over (p : platform)
  (tries : list (reply * reply)) (rest : list reply) :
  Forall (rejected p) tries →
  run_magic_square_app p (replies tries ++ rest)
  = (retry_dialogs p (length tries) ++ (run_magic_square_app p rest).1,
     (run_magic_square_app p rest).2).
Proof.
  intros Htries. apply run_app_prefix. by apply size_loop_retries.
Qed.

Lemma rejected_tries_start_over_witness :
  let p := Platform false (λ s, if String.eqb s "4" then Some 4 else None) in
  let tries :=
    [(Text "4"%string, Dismissed); (Text "4"%string, Text "ok"%string)] in
  Forall (rejected p) tries
  ∧ run_magic_square_app p (replies tries ++ [WindowClosed])
    = (retry_dialogs p (length tries)
         ++ (run_magic_square_app p [WindowClosed]).1,
       (run_magic_square_app p [WindowClosed]).2).
Proof.
  intros p tries.
  assert (Forall (rejected p) tries) as Htries.
  { repeat constructor.
    - exists 4, None. split; [reflexivity|]. split; [|reflexivity].
      unfold valid_sizes. rewrite !elem_of_cons, elem_of_nil. lia.
    - exists 4, (Some "ok"%string).
      split; [reflexivity|]. split; [|reflexivity].
      unfold valid_sizes. rewrite !elem_of_cons, elem_of_nil. lia. }
  split; [exact Htries|].
  exact (rejected_tries_start_over p tries [WindowClosed] Htries).
Defined.

Lemma accepted_entry (p : platform) (rp : reply) (k : Z) rest :
  get_numeric_input p rp = Returned (Some k) → k ∈ valid_sizes →
  run_magic_square_app p (rp :: rest)
  = ([numeric_dialog p "Magic Square Size" size_prompt;
      Drawn (grid_after k (k * k)) k], Completed).
Proof.
  intros Hget Hk.
  assert (size_loop p (rp :: rest)
          = ([numeric_dialog p "Magic Square Size" size_prompt], Break k))
    as Hloop.
  { simpl. by rewrite Hget, bool_decide_eq_true_2. }
  by destruct (run_app_break _ _ _ _ Hloop) as (_ & _ & ->).
Qed.

Lemma int_of_float_truncates (m e k : Z) :
  0 ≤ k → e ≤ 0 → k * 2 ^ (- e) ≤ m < (k + 1) * 2 ^ (- e) →
  int_of_float (Finite m e) = Returned k.
Proof.
  intros Hk He Hm. unfold int_of_float. case_decide as He'.
  - assert (e = 0) as -> by lia. simpl in Hm. f_equal. lia.
  - assert (0 < 2 ^ (- e)) as Hd by (apply Z.pow_pos_nonneg; lia).
    f_equal. rewrite Z.quot_div_nonneg by nia.
    symmetry. apply (Z.div_unique_pos _ _ _ (m - 2 ^ (- e) * k)); lia.
Qed.

(** X11: a numeric entry is cut down to its integer part before it is
    checked, so a fractional entry between an accepted size [k] and [k + 1]
    is taken as [k] and the square of order [k] is drawn. *)
Theorem fractional_entry_truncated (p : platform) (m e k : Z) rest :
  numinput_callable p = true → k ∈ valid_sizes →
  e ≤ 0 → k * 2 ^ (- e) ≤ m < (k + 1) * 2 ^ (- e) →
  ∃ g, grid_of (create_magic_square k) = Some g
       ∧ run_magic_square_app p (Number (Finite m e) :: rest)
         = ([NumDialog "Magic Square Size" size_prompt; Drawn g k],
            Completed).
Proof.
  intros Hcall Hk He Hm.
  destruct (valid_sizes_odd_positive k Hk) as [Hpos Hodd].
  exists (grid_after k (k * k)).
  rewrite create_magic_square_after by done. split; [done|].
  rewrite (accepted_entry p _ k); [|  |done].
  - unfold numeric_dialog. by rewrite Hcall.
  - unfold get_numeric_input. rewrite Hcall. simpl numinput. cbv iota.
    by rewrite (int_of_float_truncates m e k) by (done || lia).
Qed.

Lemma fractional_entry_truncated_witness :
  let p := Platform true (λ _, None) in
  ∃ g, grid_of (create_magic_square 3) = Some g
       ∧ run_magic_square_app p [Number (Finite 31 (-3))]
         = ([NumDialog "Magic Square Size" size_prompt; Drawn g 3],
            Completed).
Proof.
  intros p.
  apply (fractional_entry_truncated p 31 (-3) 3 []); [reflexivity| |lia|].
  - unfold valid_sizes. apply list_elem_of_here.
  - vm_compute. split; [discriminate | reflexivity].
Defined.

(** X12: entries that [int] cannot convert.  With the numeric dialog, a NaN
    entry is swallowed as [None] and ends the program with status 0 like a
    cancelled dialog, while an infinite entry raises an [OverflowError] that
    neither [get_numeric_input] nor the application catches.  With the text
    dialog, text that is no integer is also swallowed as [None]: the program
    exits with status 0 instead of asking again. *)
Theorem unconvertible_entries (p : platform) (rest : list reply) :
  (numinput_callable p = true →
     run_magic_square_app p (Number NaN :: rest)
     = ([NumDialog "Magic Square Size" size_prompt], Exited 0)
     ∧ ∀ b, run_magic_square_app p (Number (Infinity b) :: rest)
            = ([NumDialog "Magic Square Size" size_prompt],
               Crashed OverflowError))
  ∧ (numinput_callable p = false →
     ∀ s, int_of_str p s = None →
          run_magic_square_app p (Text s :: rest)
          = ([TextDialog "Magic Square Size" size_prompt], Exited 0)).
Proof.
  split.
  - intros Hcall. split; [|intros b];
      unfold run_magic_square_app, numeric_dialog; simpl;
      unfold get_numeric_input, numeric_dialog; by rewrite Hcall.
  - intros Hcall s Hs.
    unfold run_magic_square_app, numeric_dialog; simpl.
    unfold get_numeric_input, numeric_dialog. rewrite Hcall. simpl.
    by rewrite Hs.
Qed.

(** X13: leaving at any time is a clean exit.  After any number of rejected
    tries, cancelling the size dialog or closing the window there ends the
    program with [sys.exit(0)] and nothing is drawn; so does closing the
    window at the "Invalid" dialog. *)
Theorem leaving_exits_with_zero (p : platform)
  (tries : list (reply * reply)) (rest : list reply) :
  Forall (rejected p) tries →
  (∀ rp, rp = Dismissed ∨ rp = WindowClosed →
     run_magic_square_app p (replies tries ++ rp :: rest)
     = (retry_dialogs p (length tries)
          ++ [numeric_dialog p "Magic Square Size" size_prompt],
        Exited 0))
  ∧ (∀ rp n, get_numeric_input p rp = Returned (Some n) → n ∉ valid_sizes →
       run_magic_square_app p (replies tries ++ rp :: WindowClosed :: rest)
       = (retry_dialogs p (length tries)
            ++ [numeric_dialog p "Magic Square Size" size_prompt;
                TextDialog "Invalid" invalid_text],
          Exited 0)).
Proof.
  intros Htries. split.
  - intros rp Hrp.
    assert (size_loop p (rp :: rest)
            = ([numeric_dialog p "Magic Square Size" size_prompt],
               Stop (Exited 0))) as Hloop.
    { simpl. unfold get_numeric_input.
      by destruct Hrp as [-> | ->], (numinput_callable p). }
    rewrite (run_app_prefix p _ (rp :: rest) _
               (size_loop_retries p tries _ Htries)).
    by destruct (run_app_stop _ _ _ _ Hloop) as [_ ->].
  - intros rp n Hget Hn.
    assert (size_loop p (rp :: WindowClosed :: rest)
            = ([numeric_dialog p "Magic Square Size" size_prompt;
                TextDialog "Invalid" invalid_text],
               Stop (Exited 0))) as Hloop.
    { simpl. by rewrite Hget, bool_decide_eq_false_2. }
    rewrite (run_app_prefix p _ (rp :: WindowClosed :: rest) _
               (size_loop_retries p tries _ Htries)).
    by destruct (run_app_stop _ _ _ _ Hloop) as [_ ->].
Qed.

Lemma leaving_exits_with_zero_witness :
  let p := Platform true (λ _, None) in
  let tries := [(Number (Finite 4 0), Dismissed)] in
  (∀ rp, rp = Dismissed ∨ rp = WindowClosed →
     run_magic_square_app p (replies tries ++ rp :: [])
     = (retry_dialogs p (length tries)
          ++ [numeric_dialog p "Magic Square Size" size_prompt],
        Exited 0))
  ∧ (∀ rp n, get_numeric_input p rp = Returned (Some n) → n ∉ valid_sizes →
       run_magic_square_app p (replies tries ++ rp :: WindowClosed :: [])
       = (retry_dialogs p (length tries)
            ++ [numeric_dialog p "Magic Square Size" size_prompt;
                TextDialog "Invalid" invalid_text],
          Exited 0)).
Proof.
  intros p tries.
  apply (leaving_exits_with_zero p tries []).
  repeat constructor. exists 4, None.
  split; [reflexivity|]. split; [|reflexivity].
  unfold valid_sizes. rewrite !elem_of_cons, elem_of_nil. lia.
Defined.
